(** * mbserver: the request pipeline of a Modbus server

    A shallow embedding of [server.go] (handler registration, [handle], the
    serializing [handler] goroutine) and of [servetcp.go] (the per-connection
    goroutine started by [accept]), with the properties of the dispatch,
    of the exception encoding, of the peer identity and of the hand-off
    between the connection goroutines and the serializer.

    Unsigned machine integers are [Z] values in their range; a [[]byte] is a
    list of such values.  Goroutines are modelled by an interleaving step
    relation whose only synchronisation is the unbuffered [requestChan]. *)

From Stdlib Require Import ZArith Lia List String.
From Stdlib.Strings Require Import Byte.
From stdpp Require Import base list strings.

Open Scope Z_scope.

Definition uint8 := Z.
Definition uint16 := Z.

(** ** Exceptions

    [handle] receives a [*Exception] from a handler and compares it with the
    address of the package variable [Success].  A pointer is therefore either
    nil or the address of an [Exception] variable, and two pointers are equal
    when they designate the same variable, whatever the values stored. *)

Definition Exception := uint8.

(** Modelled from the spec: the declaration of [Exception] and of its package
    variables, which [server.go] uses and does not contain.  The spec names
    [Success] (the zero value of the enumeration) and [IllegalFunction]
    (wire code 0x01); every other [Exception] variable, declared by the
    package or by a handler, is an [OtherException] with its own identity
    and value. *)
Inductive ExceptionVar :=
| Success
| IllegalFunction
| OtherException (id : nat) (value : Exception).

Definition valueOf (v : ExceptionVar) : Exception :=
  match v with
  | Success => 0
  | IllegalFunction => 1
  | OtherException _ value => value
  end.

Inductive ExceptionPtr :=
| nilException
| addressOf (v : ExceptionVar).

#[global] Instance ExceptionVar_eq_dec : EqDecision ExceptionVar.
Proof. solve_decision. Defined.

#[global] Instance ExceptionPtr_eq_dec : EqDecision ExceptionPtr.
Proof. solve_decision. Defined.

(** The numeric code a pointer designates; nil designates none. *)
Definition deref (p : ExceptionPtr) : option Exception :=
  match p with
  | nilException => None
  | addressOf v => Some (valueOf v)
  end.

(** ** The [Framer] interface

    [server.go] uses a frame only through these methods.  A method that
    mutates its receiver returns the updated frame. *)

Class Framer (F : Type) := {
  Bytes : F -> list uint8;
  Copy : F -> F;
  GetData : F -> list uint8;
  GetFunction : F -> uint8;
  SetException : F -> ExceptionPtr -> F;
  SetData : F -> list uint8 -> F
}.

(** ** Request contexts

    [context.WithValue] stacks a binding on its parent and [Value] returns the
    innermost binding of a key: an association list, newest binding first. *)

Module context.

Definition Context := list (string * string).

Definition Background : Context := [].

Definition WithValue (parent : Context) (key val : string) : Context :=
  (key, val) :: parent.

Fixpoint Value (c : Context) (key : string) : option string :=
  match c with
  | [] => None
  | (k, v) :: parent => if String.eqb k key then Some v else Value parent key
  end.

End context.

(** ** The server *)

(** The fields of [Server] a handler can reach through its [*Server]
    argument.  A slice is [None] while it is nil. *)
Record Exported := {
  Debug : bool;
  DiscreteInputs : option (list uint8);
  Coils : option (list uint8);
  HoldingRegisters : option (list uint16);
  InputRegisters : option (list uint16)
}.

(** Indexing a [[256]T] array of nilable functions with a [uint8]. *)
Definition lookup_code {A} (table : list (option A)) (code : uint8) : option A :=
  match table !! Z.to_nat code with
  | Some entry => entry
  | None => None
  end.

Definition make {A} (zero : A) (n : Z) : option (list A) :=
  Some (replicate (Z.to_nat n) zero).

Section Server.
Context {F : Type} `{Framer F}.

(** A native handler may mutate the server it is given: it returns the
    fields as it leaves them.  The handler tables are not among them: a
    handler that registers handlers is outside this model. *)
Definition FunctionHandler : Type :=
  Exported -> F -> list uint8 * ExceptionPtr * Exported.

(** A context-aware handler is followed through what it returns for the
    context and the frame it is given; what a closure does besides to
    variables it captured is outside this model. *)
Definition ContextFunctionHandler : Type :=
  context.Context -> F -> list uint8 * ExceptionPtr.

Record Server := {
  exported : Exported;
  function : list (option FunctionHandler);
  handlers : list (option ContextFunctionHandler)
}.

(** [conn] is the index of the connection in the table of connections. *)
Record Request := {
  ctx : context.Context;
  conn : nat;
  frame : F
}.

Definition zeroExported : Exported :=
  {| Debug := false; DiscreteInputs := None; Coils := None;
     HoldingRegisters := None; InputRegisters := None |}.

Definition NewServer : Server :=
  {| exported := zeroExported;
     function := replicate 256 None;
     handlers := replicate 256 None |}.

(** [s.function[code] = handler] and [s.handlers[code] = handler]. *)
Definition setFunction (s : Server) (code : uint8)
    (handler : option FunctionHandler) : Server :=
  {| exported := exported s;
     function := <[Z.to_nat code := handler]> (function s);
     handlers := handlers s |}.

Definition setHandlers (s : Server) (code : uint8)
    (handler : option ContextFunctionHandler) : Server :=
  {| exported := exported s;
     function := function s;
     handlers := <[Z.to_nat code := handler]> (handlers s) |}.

Definition withExported (s : Server) (fields : Exported) : Server :=
  {| exported := fields; function := function s; handlers := handlers s |}.

Definition RegisterFunctionHandler (s : Server) (code : uint8)
    (handler : option FunctionHandler) : Server :=
  setFunction s code handler.

Definition RegisterContextFunctionHandler (s : Server) (code : uint8)
    (handler : option ContextFunctionHandler) : Server :=
  setHandlers s code handler.

Section Defaults.
(** The default handlers are defined outside the two files modelled. *)
Variables ReadCoils ReadDiscreteInputs ReadHoldingRegisters
          ReadInputRegisters WriteSingleCoil WriteHoldingRegister
          WriteMultipleCoils WriteHoldingRegisters : FunctionHandler.

Definition NewServerWithDefaults : Server :=
  let s := {| exported := zeroExported;
              function := replicate 256 None;
              handlers := replicate 256 None |} in
  let s := withExported s
    {| Debug := Debug (exported s);
       DiscreteInputs := make 0 65536;
       Coils := make 0 65536;
       HoldingRegisters := make 0 65536;
       InputRegisters := make 0 65536 |} in
  let s := setFunction s 1 (Some ReadCoils) in
  let s := setFunction s 2 (Some ReadDiscreteInputs) in
  let s := setFunction s 3 (Some ReadHoldingRegisters) in
  let s := setFunction s 4 (Some ReadInputRegisters) in
  let s := setFunction s 5 (Some WriteSingleCoil) in
  let s := setFunction s 6 (Some WriteHoldingRegister) in
  let s := setFunction s 15 (Some WriteMultipleCoils) in
  let s := setFunction s 16 (Some WriteHoldingRegisters) in
  s.
End Defaults.

(** [handle]: the response frame, and the server as the handler left it. *)
Definition handle (s : Server) (request : Request) : F * Server :=
  let response := Copy (frame request) in
  let code := GetFunction (frame request) in
  let '(response, exception, s) :=
    match lookup_code (function s) code with
    | Some native =>
        let '(data, exception, fields) :=
          native (exported s) (frame request) in
        (SetData response data, exception, withExported s fields)
    | None =>
        match lookup_code (handlers s) code with
        | Some external =>
            let '(data, exception) :=
              external (ctx request) (frame request) in
            (SetData response data, exception, s)
        | None => (response, addressOf IllegalFunction, s)
        end
    end in
  let response :=
    if decide (exception <> addressOf Success)
    then SetException response exception
    else response in
  (response, s).
End Server.

Arguments Server F : clear implicits.
Arguments Request F : clear implicits.
Arguments FunctionHandler F : clear implicits.
Arguments ContextFunctionHandler F : clear implicits.

(** ** The stream frame *)

Module TCP.

(** Modelled from the spec: the frame codec ([NewTCPFrame], the [TCPFrame]
    type and its methods), which [servetcp.go] calls and does not contain.
    A frame carries a transaction identifier, a protocol identifier, a unit
    identifier, a function code and payload bytes. *)
Record Frame := {
  TransactionId : uint16;
  ProtocolId : uint16;
  UnitId : uint8;
  FunctionCode : uint8;
  Payload : list uint8
}.

Inductive DecodeError := MalformedFrame.

Definition get16 (hi lo : uint8) : uint16 := Z.lor (Z.shiftl hi 8) lo.

Definition put16 (v : uint16) : list uint8 :=
  [Z.land (Z.shiftr v 8) 255; Z.land v 255].

(** Modelled from the spec: a 7-byte envelope (2-byte transaction id, 2-byte
    protocol id, 2-byte length of the remainder, 1-byte unit id), then the
    function code and the payload; 16-bit fields most significant byte
    first, as on a Modbus stream. *)
Definition Encode (f : Frame) : list uint8 :=
  put16 (TransactionId f) ++ put16 (ProtocolId f)
  ++ put16 (Z.of_nat (length (Payload f)) + 2)
  ++ [UnitId f; FunctionCode f] ++ Payload f.

(** Modelled from the spec: [Decode] fails with [MalformedFrame] if the
    buffer is shorter than the envelope, if the declared length does not
    match the remaining bytes, or if the protocol id is not 0.  A buffer
    that ends with the envelope has no function code and is malformed
    too. *)
Definition Decode (raw : list uint8) : Frame + DecodeError :=
  match raw with
  | t1 :: t0 :: p1 :: p0 :: l1 :: l0 :: unit :: code :: payload =>
      if negb (get16 l1 l0 =? Z.of_nat (length payload) + 2) then
        inr MalformedFrame
      else if negb (get16 p1 p0 =? 0) then inr MalformedFrame
      else inl {| TransactionId := get16 t1 t0; ProtocolId := get16 p1 p0;
                  UnitId := unit; FunctionCode := code; Payload := payload |}
  | _ => inr MalformedFrame
  end.

(** Modelled from the spec: [BuildResponse] copies the envelope fields,
    payload empty. *)
Definition BuildResponse (request : Frame) : Frame :=
  {| TransactionId := TransactionId request;
     ProtocolId := ProtocolId request;
     UnitId := UnitId request;
     FunctionCode := FunctionCode request;
     Payload := [] |}.

Definition SetPayload (f : Frame) (bytes : list uint8) : Frame :=
  {| TransactionId := TransactionId f; ProtocolId := ProtocolId f;
     UnitId := UnitId f; FunctionCode := FunctionCode f; Payload := bytes |}.

(** Modelled from the spec: [SetException] overwrites the function-code high
    bit and substitutes a single exception-code byte as payload. *)
Definition SetException (f : Frame) (e : Exception) : Frame :=
  {| TransactionId := TransactionId f; ProtocolId := ProtocolId f;
     UnitId := UnitId f; FunctionCode := Z.lor (FunctionCode f) 0x80;
     Payload := [e] |}.

End TCP.

(** The stream frame behind the [Framer] interface.  The interface passes a
    [*Exception]; the contract above is stated for an [Exception], the value
    the pointer designates.  A nil pointer designates none, a case the
    contract does not cover: the frame is left as it is there, and nothing
    below is stated about this instance at nil. *)
#[global] Instance TCPFramer : Framer TCP.Frame := {
  Bytes := TCP.Encode;
  Copy := TCP.BuildResponse;
  GetData := TCP.Payload;
  GetFunction := TCP.FunctionCode;
  SetException f exception :=
    match deref exception with
    | Some e => TCP.SetException f e
    | None => f
    end;
  SetData := TCP.SetPayload
}.

(** ** Peer certificates *)

Module pkix.
(** [Value] is the slice the certificate parser produced: it may be empty
    and is never nil. *)
Record Extension := {
  Id : list Z;
  Value : list byte
}.
End pkix.

Module x509.
Record Certificate := {
  SubjectCommonName : string;
  Extensions : list pkix.Extension
}.
End x509.

(** [asn1.ObjectIdentifier.Equal] *)
Definition Equal (oi other : list Z) : bool := bool_decide (oi = other).

Definition roleID : list Z := [1; 3; 6; 1; 4; 1; 50316; 802; 1].

(** The two nested loops over [PeerCertificates]: [user] starts as the empty
    string and [role] as nil; every extension with the role identifier
    overwrites both. *)
Definition peerIdentity (certs : list x509.Certificate)
    : string * option (list byte) :=
  fold_left
    (fun acc cert =>
       fold_left
         (fun '(user, role) ext =>
            if Equal (pkix.Id ext) roleID
            then (x509.SubjectCommonName cert, Some (pkix.Value ext))
            else (user, role))
         (x509.Extensions cert) acc)
    certs (""%string, None).

(** ** Connections *)

(** An [error] value: [io.EOF] itself, or any other error with its text. *)
Inductive error :=
| io_EOF
| errorString (msg : string).

Definition Error (err : error) : string :=
  match err with
  | io_EOF => "EOF"%string
  | errorString msg => msg
  end.

#[global] Instance error_eq_dec : EqDecision error.
Proof. solve_decision. Defined.

Module tls.
(** What the goroutine observes of a [*tls.Conn]: the result of [Handshake]
    and the peer's certificates. *)
Record Conn := {
  Handshake : option error;
  PeerCertificates : list x509.Certificate
}.
End tls.

(** What the transport will deliver to successive [Read] calls. *)
Inductive Arrival :=
| Data (bytes : list uint8)
| Fail (err : error).

Module net.
(** A [net.Conn]: [tlsConn] is the outcome of the type assertion to
    [*tls.Conn], [remoteHost] the host [net.SplitHostPort] extracts from
    [RemoteAddr] when it succeeds, [input] what is still to arrive. *)
Record Conn := {
  tlsConn : option tls.Conn;
  remoteHost : option string;
  input : list Arrival
}.

Definition withInput (c : Conn) (rest : list Arrival) : Conn :=
  {| tlsConn := tlsConn c; remoteHost := remoteHost c; input := rest |}.

(** [conn.Read(p)]: at most [len(p)] bytes of the first arrival are copied to
    the front of [p]; what did not fit stays in the transport.  [None] when
    nothing has arrived: the call blocks. *)
Definition Read (c : Conn) (p : list uint8)
    : option (Conn * list uint8 * Z * option error) :=
  match input c with
  | [] => None
  | Data bytes :: rest =>
      let n := Nat.min (length p) (length bytes) in
      let rest :=
        if (length p <? length bytes)%nat then Data (drop n bytes) :: rest
        else rest in
      Some (withInput c rest, take n bytes ++ drop n p, Z.of_nat n, None)
  | Fail err :: rest => Some (withInput c rest, p, 0, Some err)
  end.
End net.

(** [NewTCPFrame] of the stream frame: the decoder, its failure as an
    [error]. *)
Definition NewTCPFrame (packet : list uint8) : TCP.Frame + error :=
  match TCP.Decode packet with
  | inl f => inl f
  | inr TCP.MalformedFrame => inr (errorString "malformed frame")
  end.

(** ** The goroutines

    One goroutine per accepted connection and the [handler] goroutine of the
    server.  A connection goroutine is followed from one blocking operation
    to the next ([conn.Read], the send on [requestChan]); the computation in
    between touches nothing another goroutine sees.  [listen.Accept] is
    followed only where it succeeds, and no handler is registered while the
    goroutines run. *)

Inductive LogMsg :=
| TLSHandshakeError (err : error)
| ReadError (err : error)
| BadPacketError (err : error).

Section Pipeline.
Context {F : Type} `{Framer F}.
Variable NewFrame : list uint8 -> F + error.

(** What the goroutines do, in the order they do it.  The first argument is
    the connection, by its index; a request carries its own. *)
Inductive Event :=
| Accepted (i : nat)
| Logged (i : nat) (msg : LogMsg)
| ReadReturned (i : nat) (n : Z) (err : option error)
| Decoding (i : nat) (packet : list uint8)
| Sending (request : Request F)
| Received (request : Request F)
| Wrote (request : Request F) (bytes : list uint8)
| Closed (i : nat).

(** Where a connection goroutine stands: just spawned, about to call
    [conn.Read], blocked in [s.requestChan <- request], or returned. *)
Inductive ProgramPoint :=
| Spawned
| AtRead (user : string) (role : option (list byte))
| AtSend (user : string) (role : option (list byte)) (request : Request F)
| Returned.

Record Goroutine := {
  netConn : net.Conn;
  pc : ProgramPoint
}.

(** From the start of the goroutine to the read loop: the forced handshake
    and the identity of the peer.  [defer conn.Close()] runs at each
    return. *)
Definition enter (i : nat) (g : Goroutine) : Goroutine * list Event :=
  let c := netConn g in
  match net.tlsConn c with
  | Some tlsConn =>
      match tls.Handshake tlsConn with
      | Some err =>
          ({| netConn := c; pc := Returned |},
           (if negb (String.eqb (Error err) "EOF")
            then [Logged i (TLSHandshakeError err)] else [])
           ++ [Closed i])
      | None =>
          let '(user, role) := peerIdentity (tls.PeerCertificates tlsConn) in
          ({| netConn := c; pc := AtRead user role |}, [])
      end
  | None => ({| netConn := c; pc := AtRead "" None |}, [])
  end.

(** The context of one request. *)
Definition requestContext (c : net.Conn) (user : string)
    (role : option (list byte)) : context.Context :=
  let ctx := context.Background in
  let ctx :=
    match net.remoteHost c with
    | Some host => context.WithValue ctx "X-Forwarded-For" host
    | None => ctx
    end in
  match role with
  | Some role =>
      let ctx := context.WithValue ctx "Modbus-User" user in
      context.WithValue ctx "Modbus-Role" (string_of_list_byte role)
  | None => ctx
  end.

(** One turn of the read loop, from [make] to the send statement.  [None]
    while [conn.Read] blocks. *)
Definition iterate (i : nat) (g : Goroutine) (user : string)
    (role : option (list byte)) : option (Goroutine * list Event) :=
  let packet := replicate 512 0 in
  match net.Read (netConn g) packet with
  | None => None
  | Some (c, packet, n, Some err) =>
      Some ({| netConn := c; pc := Returned |},
            [ReadReturned i n (Some err)]
            ++ (if decide (err <> io_EOF)
                then [Logged i (ReadError err)] else [])
            ++ [Closed i])
  | Some (c, packet, n, None) =>
      let packet := take (Z.to_nat n) packet in
      match NewFrame packet with
      | inr err =>
          Some ({| netConn := c; pc := Returned |},
                [ReadReturned i n None; Decoding i packet;
                 Logged i (BadPacketError err); Closed i])
      | inl frame =>
          let ctx := requestContext c user role in
          let request := {| ctx := ctx; conn := i; frame := frame |} in
          Some ({| netConn := c; pc := AtSend user role request |},
                [ReadReturned i n None; Decoding i packet; Sending request])
      end
  end.

(** The next move of connection goroutine [i] on its own, if it has one. *)
Definition advance (i : nat) (g : Goroutine)
    : option (Goroutine * list Event) :=
  match pc g with
  | Spawned => Some (enter i g)
  | AtRead user role => iterate i g user role
  | AtSend _ _ _ => None
  | Returned => None
  end.

(** The server with its goroutines: [serving] is the request the [handler]
    goroutine holds between its receive and its [Write]. *)
Record State := {
  server : Server F;
  conns : list Goroutine;
  serving : option (Request F);
  trace : list Event
}.

(** After [NewServer]: the [handler] goroutine waits on [requestChan]. *)
Definition boot (s : Server F) : State :=
  {| server := s; conns := []; serving := None; trace := [] |}.

(** Who moves.  [Accept c]: the accept loop gets [c] and spawns its
    goroutine.  [Run i]: goroutine [i] advances on its own.  [Handoff i]:
    the send of goroutine [i] meets the receive of [handler]; the channel is
    unbuffered, both complete together.  [Serve]: [handler] runs [handle]
    and writes the response, the result of [Write] ignored. *)
Inductive Label :=
| Accept (c : net.Conn)
| Run (i : nat)
| Handoff (i : nat)
| Serve.

Definition exec (l : Label) (st : State) : option State :=
  match l with
  | Accept c =>
      Some {| server := server st;
              conns := conns st ++ [{| netConn := c; pc := Spawned |}];
              serving := serving st;
              trace := trace st ++ [Accepted (length (conns st))] |}
  | Run i =>
      match conns st !! i with
      | Some g =>
          match advance i g with
          | Some (g', events) =>
              Some {| server := server st;
                      conns := <[i := g']> (conns st);
                      serving := serving st;
                      trace := trace st ++ events |}
          | None => None
          end
      | None => None
      end
  | Handoff i =>
      match conns st !! i, serving st with
      | Some {| netConn := c; pc := AtSend user role request |}, None =>
          Some {| server := server st;
                  conns := <[i := {| netConn := c; pc := AtRead user role |}]>
                             (conns st);
                  serving := Some request;
                  trace := trace st ++ [Received request] |}
      | _, _ => None
      end
  | Serve =>
      match serving st with
      | Some request =>
          let '(response, s) := handle (server st) request in
          Some {| server := s;
                  conns := conns st;
                  serving := None;
                  trace := trace st ++ [Wrote request (Bytes response)] |}
      | None => None
      end
  end.

Fixpoint run (schedule : list Label) (st : State) : option State :=
  match schedule with
  | [] => Some st
  | l :: schedule =>
      match exec l st with
      | Some st => run schedule st
      | None => None
      end
  end.

Inductive reachable (s : Server F) : State -> Prop :=
| reachable_boot : reachable s (boot s)
| reachable_exec st l st' :
    reachable s st -> exec l st = Some st' -> reachable s st'.

(** The requests goroutine [i] brought to its send statement, the requests
    [handler] received, the requests whose response it wrote. *)
Definition sentOn (i : nat) (e : Event) : option (Request F) :=
  match e with
  | Sending r => if (conn r =? i)%nat then Some r else None
  | _ => None
  end.

Definition writtenOn (i : nat) (e : Event) : option (Request F) :=
  match e with
  | Wrote r _ => if (conn r =? i)%nat then Some r else None
  | _ => None
  end.

Definition isReceived (e : Event) : option (Request F) :=
  match e with
  | Received r => Some r
  | _ => None
  end.

Definition isWritten (e : Event) : option (Request F) :=
  match e with
  | Wrote r _ => Some r
  | _ => None
  end.

Definition sent (i : nat) (tr : list Event) : list (Request F) :=
  omap (sentOn i) tr.

Definition written (i : nat) (tr : list Event) : list (Request F) :=
  omap (writtenOn i) tr.

Definition received (tr : list Event) : list (Request F) :=
  omap isReceived tr.

Definition answered (tr : list Event) : list (Request F) :=
  omap isWritten tr.

Definition decoded (i : nat) (tr : list Event) : list (list uint8) :=
  omap (fun e => match e with
                 | Decoding j packet =>
                     if (j =? i)%nat then Some packet else None
                 | _ => None
                 end) tr.

(** The request of goroutine [i] waiting at the send, and the request of
    connection [i] in the hands of [handler]. *)
Definition pendingOf (g : Goroutine) : list (Request F) :=
  match pc g with
  | AtSend _ _ r => [r]
  | _ => []
  end.

Definition pending (i : nat) (st : State) : list (Request F) :=
  match conns st !! i with
  | Some g => pendingOf g
  | None => []
  end.

Definition inflight (i : nat) (st : State) : list (Request F) :=
  match serving st with
  | Some r => if (conn r =? i)%nat then [r] else []
  | None => []
  end.

End Pipeline.

(** ** Vocabulary of the properties *)

(** The handler [handle] invokes for [request] returns [data] and
    [exception]: the native handler of the function code, or else the
    context-aware one. *)
Definition returns {F : Type} `{Framer F} (s : Server F) (request : Request F)
    (data : list uint8) (exception : ExceptionPtr) : Prop :=
  let code := GetFunction (frame request) in
  (exists native fields,
      lookup_code (function s) code = Some native
      /\ native (exported s) (frame request) = (data, exception, fields))
  \/ (lookup_code (function s) code = None
      /\ exists external,
           lookup_code (handlers s) code = Some external
           /\ external (ctx request) (frame request) = (data, exception)).


(** The identity the goroutine of a connection works with once it is in the
    read loop. *)
Definition identityOf (c : net.Conn) : string * option (list byte) :=
  match net.tlsConn c with
  | Some tlsConn => peerIdentity (tls.PeerCertificates tlsConn)
  | None => (""%string, None)
  end.

(** A goroutine in the read loop works with the identity of its
    connection. *)
Definition identityKnown {F : Type} (g : @Goroutine F) : Prop :=
  match pc g with
  | AtRead user role | AtSend user role _ =>
      (user, role) = identityOf (netConn g)
  | _ => True
  end.

(** The reading of the hand-off under which a connection goroutine is held
    until the response is written: whenever [conn.Read] returns on
    connection [i], every request sent on [i] before has its response
    written. *)
Definition ReadWaitsForResponse {F : Type} `{Framer F}
    (NewFrame : list uint8 -> F + error) (s : Server F) : Prop :=
  forall st, reachable NewFrame s st ->
  forall before i n err after,
    trace st = before ++ ReadReturned i n err :: after ->
    sent i before = written i before.

(** ** Sample values *)

Module Sample.

(** Read holding registers, start address 0, quantity 2. *)
Definition readHolding : TCP.Frame :=
  {| TCP.TransactionId := 1; TCP.ProtocolId := 0; TCP.UnitId := 1;
     TCP.FunctionCode := 3; TCP.Payload := [0; 0; 0; 2] |}.

(** A request with function code 99. *)
Definition unknown : TCP.Frame :=
  {| TCP.TransactionId := 2; TCP.ProtocolId := 0; TCP.UnitId := 1;
     TCP.FunctionCode := 99; TCP.Payload := [] |}.

Definition request (f : TCP.Frame) : Request TCP.Frame :=
  {| ctx := context.Background; conn := 0; frame := f |}.

(** Handlers that return two data bytes and the given pointer. *)
Definition native (exception : ExceptionPtr) : FunctionHandler TCP.Frame :=
  fun fields _ => ([0xAA; 0xBB], exception, fields).

Definition external (exception : ExceptionPtr)
    : ContextFunctionHandler TCP.Frame :=
  fun _ _ => ([0xCC], exception).

Definition withNative (exception : ExceptionPtr) : Server TCP.Frame :=
  RegisterFunctionHandler NewServer 3 (Some (native exception)).

Definition withBoth (exception : ExceptionPtr) : Server TCP.Frame :=
  RegisterContextFunctionHandler (withNative exception) 3
    (Some (external (addressOf IllegalFunction))).

(** The request with function code 99 as it arrives on a stream. *)
Definition packet : list uint8 := [0; 2; 0; 0; 0; 2; 1; 99].

(** A plaintext connection on which [input] arrives. *)
Definition plain (input : list Arrival) : net.Conn :=
  {| net.tlsConn := None; net.remoteHost := Some "10.0.0.7"%string;
     net.input := input |}.

(** A peer certificate with the role extension set to "operator", and one
    without it. *)
Definition operatorCert : x509.Certificate :=
  {| x509.SubjectCommonName := "alice";
     x509.Extensions :=
       [{| pkix.Id := [2; 5; 29; 15]; pkix.Value := [x03; x02; x05; xa0] |};
        {| pkix.Id := roleID;
           pkix.Value := list_byte_of_string "operator" |}] |}.

Definition plainCert : x509.Certificate :=
  {| x509.SubjectCommonName := "bob";
     x509.Extensions :=
       [{| pkix.Id := [2; 5; 29; 15]; pkix.Value := [x03; x02; x05; xa0] |}] |}.

(** A mutually-authenticated connection: the handshake succeeded. *)
Definition secured (certs : list x509.Certificate) (input : list Arrival)
    : net.Conn :=
  {| net.tlsConn :=
       Some {| tls.Handshake := None; tls.PeerCertificates := certs |};
     net.remoteHost := Some "10.0.0.8"%string;
     net.input := input |}.

(** The state a schedule leads to from a server without handlers. *)
Definition after (schedule : list Label) : State :=
  default (boot NewServer) (run NewTCPFrame schedule (boot NewServer)).

(** Schedules of one connection on which the request arrives twice: up to
    the first send, up to the second read, up to the second response. *)
Definition request99 : Request TCP.Frame :=
  {| ctx := [("X-Forwarded-For", "10.0.0.7")]%string; conn := 0%nat;
     frame := unknown |}.

Definition firstAtSend : list Label :=
  [Accept (plain [Data packet; Data packet]); Run 0; Run 0].

Definition secondRead : list Label := firstAtSend ++ [Handoff 0; Run 0].

Definition bothAnswered : list Label :=
  secondRead ++ [Serve; Handoff 0; Serve].

(** A connection reset after its first request. *)
Definition reset : error := errorString "connection reset by peer".

Definition beforeReset : list Label :=
  [Accept (plain [Data packet; Fail reset]); Run 0; Run 0; Handoff 0].

(** An arrival of 600 bytes. *)
Definition oversize : list uint8 := replicate 600 7.

Definition beforeOversize : list Label :=
  [Accept (plain [Data oversize]); Run 0].

(** The first request of a peer whose certificate names it an operator. *)
Definition operatorRequest : Request TCP.Frame :=
  {| ctx := [("Modbus-Role", "operator"); ("Modbus-User", "alice");
             ("X-Forwarded-For", "10.0.0.8")]%string;
     conn := 0%nat; frame := unknown |}.

Definition operatorSends : list Label :=
  [Accept (secured [operatorCert] [Data packet]); Run 0; Run 0].



(** A variable of the enumeration with the wire code 4. *)
Definition deviceFailure : ExceptionVar := OtherException 0 4.

(** A variable that holds the numeric code of [Success] and is not
    [Success]. *)
Definition zero : ExceptionVar := OtherException 1 0.

End Sample.

(** ** The serializer as a sequential program *)

Section Serial.
Context {F : Type} `{Framer F}.

(** [handle] applied to the requests in turn, each on the server the one
    before left: the server at the end and the bytes of the responses. *)
Fixpoint serial (s : Server F) (requests : list (Request F))
    : Server F * list (list uint8) :=
  match requests with
  | [] => (s, [])
  | request :: rest =>
      let '(response, s) := handle s request in
      let '(s, written) := serial s rest in
      (s, Bytes response :: written)
  end.

(** The bytes [handler] passed to [Write], in the order of the calls. *)
Definition responses (tr : list (@Event F)) : list (list uint8) :=
  omap (fun e => match e with
                 | Wrote _ bytes => Some bytes
                 | _ => None
                 end) tr.

(** The connection an event belongs to. *)
Definition connOf (e : @Event F) : nat :=
  match e with
  | Accepted i | Logged i _ | ReadReturned i _ _ | Decoding i _ | Closed i =>
      i
  | Sending r | Received r | Wrote r _ => conn r
  end.

(** How many times connection [i] was closed. *)
Definition closes (i : nat) (tr : list (@Event F)) : nat :=
  length (omap (fun e => match e with
                         | Closed j => if (j =? i)%nat then Some j else None
                         | _ => None
                         end) tr).

End Serial.

(** ** Listeners

    [accept] up to the goroutines it spawns, [ListenTCP], [ListenTLS],
    [createServerTLSConfig] and [Close].  The network, the file system and
    the PEM and key parsers are given by what they return. *)

(** [strings.Contains] *)
Definition Contains (s substr : string) : bool :=
  match index 0 substr s with
  | Some _ => true
  | None => false
  end.

Inductive ListenLog :=
| FailedToListen (err : error)
| UnableToAccept (err : error).

(** A [net.Listener]: the outcomes of the calls to [Accept] still to come
    while it is open, and the error [Accept] returns once it is closed. *)
Record Listener := {
  closed : bool;
  closing : error;
  arriving : list (net.Conn + error)
}.

Definition closeListener (listen : Listener) : Listener :=
  {| closed := true; closing := closing listen;
     arriving := arriving listen |}.

(** A serial port, open or closed. *)
Record Port := { opened : bool }.

Definition closePort (port : Port) : Port := {| opened := false |}.

(** The fields [listeners] and [ports] of [Server]. *)
Record Endpoints := {
  listeners : list Listener;
  ports : list Port
}.

(** How a run of [accept] stands: blocked in [listen.Accept], or returned. *)
Inductive Outcome :=
| Blocked
| Return (err : option error).

(** The branch [err != nil] of [accept]. *)
Definition acceptFailed (err : error) : list ListenLog * Outcome :=
  if Contains (Error err) "use of closed network connection"
  then ([], Return None)
  else ([UnableToAccept err], Return (Some err)).

(** The loop of [accept] on an open listener: the connections for which a
    goroutine is spawned, the log, and the outcome. *)
Fixpoint acceptAll (arriving : list (net.Conn + error))
    : list net.Conn * list ListenLog * Outcome :=
  match arriving with
  | [] => ([], [], Blocked)
  | inl conn :: arriving =>
      let '(spawned, logs, outcome) := acceptAll arriving in
      (conn :: spawned, logs, outcome)
  | inr err :: _ =>
      let '(logs, outcome) := acceptFailed err in ([], logs, outcome)
  end.

Definition accept (listen : Listener)
    : list net.Conn * list ListenLog * Outcome :=
  if closed listen
  then let '(logs, outcome) := acceptFailed (closing listen) in
       ([], logs, outcome)
  else acceptAll (arriving listen).

(** [Close]: every listener and every port is closed. *)
Definition Close (e : Endpoints) : Endpoints :=
  {| listeners := map closeListener (listeners e);
     ports := map closePort (ports e) |}.

Module tlsconf.
Inductive ClientAuthType :=
| NoClientCert
| RequestClientCert
| RequireAnyClientCert
| VerifyClientCertIfGiven
| RequireAndVerifyClientCert.

(** The fields of [tls.Config] that [createServerTLSConfig] sets. *)
Record Config (KeyPair : Type) := {
  Certificates : list KeyPair;
  ClientAuth : ClientAuthType;
  ClientCAs : list x509.Certificate
}.
Arguments Certificates {KeyPair} _.
Arguments ClientAuth {KeyPair} _.
Arguments ClientCAs {KeyPair} _.
End tlsconf.

Section Listen.
(** [ioutil.ReadFile]; the certificates [AppendCertsFromPEM] parses, which
    reports success when there is at least one; [tls.LoadX509KeyPair];
    [net.Listen] and [tls.Listen]. *)
Variable KeyPair : Type.
Variable ReadFile : string -> list byte + error.
Variable parsePEM : list byte -> list x509.Certificate.
Variable LoadX509KeyPair : string -> string -> KeyPair + error.
Variable netListen : string -> Listener + error.
Variable tlsListen : string -> tlsconf.Config KeyPair -> Listener + error.

(** [fmt.Errorf(text + ": %w", err)] *)
Definition wrap (text : string) (err : error) : error :=
  errorString (text ++ ": " ++ Error err).

(** [ListenTCP]: the endpoints, the log, the listener on which [accept] is
    started, and the error returned. *)
Definition ListenTCP (e : Endpoints) (endpoint : string)
    : Endpoints * list ListenLog * option Listener * option error :=
  match netListen endpoint with
  | inr err => (e, [FailedToListen err], None, Some err)
  | inl listen =>
      ({| listeners := listeners e ++ [listen]; ports := ports e |},
       [], Some listen, None)
  end.

Definition createServerTLSConfig (ca crt key : string)
    : tlsconf.Config KeyPair + error :=
  match ReadFile ca with
  | inr err => inr (wrap "reading CA certificate" err)
  | inl caCertPEM =>
      let roots := parsePEM caCertPEM in
      match roots with
      | [] => inr (errorString "failed to parse CA certificate")
      | _ :: _ =>
          match LoadX509KeyPair crt key with
          | inr err => inr (errorString "loading server certificate and key")
          | inl cert =>
              inl {| tlsconf.Certificates := [cert];
                     tlsconf.ClientAuth := tlsconf.RequireAndVerifyClientCert;
                     tlsconf.ClientCAs := roots |}
          end
      end
  end.

Definition ListenTLS (e : Endpoints) (endpoint key crt ca : string)
    : Endpoints * option Listener * option error :=
  match createServerTLSConfig ca crt key with
  | inr err => (e, None, Some (wrap "creating TLS config" err))
  | inl config =>
      match tlsListen endpoint config with
      | inr err =>
          (e, None,
           Some (wrap ("listening for TLS on " ++ endpoint) err))
      | inl listen =>
          ({| listeners := listeners e ++ [listen]; ports := ports e |},
           Some listen, None)
      end
  end.

End Listen.

(** ** Further sample values *)

Module Cases.

(** A native handler with a memory: it answers with the current [Debug]
    flag and flips it. *)
Definition flip : FunctionHandler TCP.Frame :=
  fun fields _ =>
    ([if Debug fields then 1 else 0], addressOf Success,
     {| Debug := negb (Debug fields);
        DiscreteInputs := DiscreteInputs fields; Coils := Coils fields;
        HoldingRegisters := HoldingRegisters fields;
        InputRegisters := InputRegisters fields |}).

(** A context-aware handler that answers with the length of the role. *)
Definition roleLength : ContextFunctionHandler TCP.Frame :=
  fun ctx _ =>
    match context.Value ctx "Modbus-Role" with
    | Some role => ([Z.of_nat (String.length role)], addressOf Success)
    | None => ([], addressOf IllegalFunction)
    end.

Definition flipping : Server TCP.Frame :=
  RegisterFunctionHandler NewServer 99 (Some flip).

(** The state a schedule leads to from a given server. *)
Definition afterOn (s : Server TCP.Frame) (schedule : list Label) : State :=
  default (boot s) (run NewTCPFrame schedule (boot s)).

(** A TLS connection whose handshake fails. *)
Definition badCertificate : error :=
  errorString "remote error: tls: bad certificate".

Definition refused : net.Conn :=
  {| net.tlsConn :=
       Some {| tls.Handshake := Some badCertificate;
               tls.PeerCertificates := [] |};
     net.remoteHost := Some "10.0.0.9"%string;
     net.input := [Data Sample.packet] |}.

(** Two connections: the first is served twice, the second is refused. *)
Definition twoConnections : list Label :=
  [Accept (Sample.plain [Data Sample.packet; Data Sample.packet]);
   Accept refused; Run 0; Run 0; Handoff 0; Run 1; Run 0; Serve; Handoff 0;
   Serve].


(** A listener closed by [Close], as the network reports it. *)
Definition closedListener : error :=
  errorString "accept tcp [::]:502: use of closed network connection".

Definition tooManyFiles : error :=
  errorString "accept tcp [::]:502: accept4: too many open files".

Definition listening (arriving : list (net.Conn + error)) : Listener :=
  {| closed := false; closing := closedListener; arriving := arriving |}.

Definition oneListener : Endpoints :=
  {| listeners := [listening [inl (Sample.plain [])]];
     ports := [{| opened := true |}] |}.

End Cases.

(** ** The peer certificate and the chain *)

(** A certificate carries the role extension with a given value. *)
Definition carriesRole (cert : x509.Certificate) (value : list byte) : Prop :=
  exists ext,
    In ext (x509.Extensions cert)
    /\ pkix.Id ext = roleID /\ pkix.Value ext = value.


Module Chain.

(** The certificate of an intermediate authority that carries the role
    extension itself, sent by the peer after its own certificate. *)
Definition caCert : x509.Certificate :=
  {| x509.SubjectCommonName := "Intermediate CA";
     x509.Extensions :=
       [{| pkix.Id := roleID; pkix.Value := list_byte_of_string "admin" |}] |}.

(** The first request on a connection whose peer presents the operator
    certificate followed by that of the authority. *)
Definition adminRequest : Request TCP.Frame :=
  {| ctx := [("Modbus-Role", "admin"); ("Modbus-User", "Intermediate CA");
             ("X-Forwarded-For", "10.0.0.8")]%string;
     conn := 0%nat; frame := Sample.unknown |}.


(** The same with a peer certificate that has no role extension. *)
Definition plainThenAuthority : list Label :=
  [Accept (Sample.secured [Sample.plainCert; caCert] [Data Sample.packet]);
   Run 0; Run 0].

End Chain.

(** * Properties *)

(** ** Dispatch *)

Section Dispatch.
Context {F : Type} `{Framer F}.
Implicit Types (s : Server F) (request : Request F).

Lemma handle_native s request native data exception fields :
  lookup_code (function s) (GetFunction (frame request)) = Some native ->
  native (exported s) (frame request) = (data, exception, fields) ->
  handle s request =
    (if decide (exception <> addressOf Success)
     then SetException (SetData (Copy (frame request)) data) exception
     else SetData (Copy (frame request)) data,
     withExported s fields).
Proof.
  intros Hnative Hcall. unfold handle. rewrite Hnative, Hcall. reflexivity.
Qed.

Lemma handle_external s request external data exception :
  lookup_code (function s) (GetFunction (frame request)) = None ->
  lookup_code (handlers s) (GetFunction (frame request)) = Some external ->
  external (ctx request) (frame request) = (data, exception) ->
  handle s request =
    (if decide (exception <> addressOf Success)
     then SetException (SetData (Copy (frame request)) data) exception
     else SetData (Copy (frame request)) data,
     s).
Proof.
  intros Hnone Hext Hcall. unfold handle. rewrite Hnone, Hext, Hcall.
  reflexivity.
Qed.

Lemma handle_returns s request data exception :
  returns s request data exception ->
  fst (handle s request) =
    if decide (exception <> addressOf Success)
    then SetException (SetData (Copy (frame request)) data) exception
    else SetData (Copy (frame request)) data.
Proof.
  intros [(native & fields & Hn & Hcall) | (Hnone & external & He & Hcall)].
  - now rewrite (handle_native _ _ _ _ _ _ Hn Hcall).
  - now rewrite (handle_external _ _ _ _ _ Hnone He Hcall).
Qed.

Lemma lookup_code_replicate {A} (n : nat) (code : uint8) :
  lookup_code (replicate n (@None A)) code = None.
Proof.
  unfold lookup_code.
  destruct (replicate n None !! Z.to_nat code) as [entry|] eqn:E; [|easy].
  apply lookup_replicate in E. tauto.
Qed.

Lemma lookup_code_insert {A} (table : list (option A)) (code : uint8) entry :
  (Z.to_nat code < length table)%nat ->
  lookup_code (<[Z.to_nat code := entry]> table) code = entry.
Proof.
  intros Hlt. unfold lookup_code. now rewrite list_lookup_insert_eq.
Qed.

Lemma handle_no_handler s request :
  lookup_code (function s) (GetFunction (frame request)) = None ->
  lookup_code (handlers s) (GetFunction (frame request)) = None ->
  handle s request
    = (SetException (Copy (frame request)) (addressOf IllegalFunction), s).
Proof.
  intros Hnative Hext. unfold handle. rewrite Hnative, Hext.
  destruct (decide (addressOf IllegalFunction <> addressOf Success))
    as [_|Heq]; [reflexivity|].
  exfalso. apply Heq. discriminate.
Qed.

(** C3: when neither table has a handler for the function code of the
    request, [handle] leaves the server as it is and answers with the copy of
    the request frame to which [SetException] was applied with the address
    of [IllegalFunction], whose numeric code is 0x01. *)
Theorem unknown_function_is_IllegalFunction s request :
  lookup_code (function s) (GetFunction (frame request)) = None ->
  lookup_code (handlers s) (GetFunction (frame request)) = None ->
  handle s request
    = (SetException (Copy (frame request)) (addressOf IllegalFunction), s)
  /\ deref (addressOf IllegalFunction) = Some 0x01.
Proof.
  intros Hnative Hext. split; [|reflexivity].
  now apply handle_no_handler.
Qed.

(** C4: [handle] compares the pointer the handler returned with the address
    of [Success].  When they are the same pointer the response is the copy
    with the handler's data and [SetException] is not applied; in every
    other case [SetException] is applied with that pointer, and this
    includes the nil pointer and the address of any other variable whose
    value is the numeric code of [Success]. *)
Theorem SetException_unless_Success_itself s request data exception :
  returns s request data exception ->
  (exception = addressOf Success ->
     fst (handle s request) = SetData (Copy (frame request)) data)
  /\ (exception <> addressOf Success ->
     fst (handle s request)
       = SetException (SetData (Copy (frame request)) data) exception)
  /\ (exception = nilException ->
     fst (handle s request)
       = SetException (SetData (Copy (frame request)) data) nilException)
  /\ (forall id,
     exception = addressOf (OtherException id (valueOf Success)) ->
     fst (handle s request)
       = SetException (SetData (Copy (frame request)) data) exception).
Proof.
  intros Hret. rewrite (handle_returns _ _ _ _ Hret).
  repeat split.
  - intros ->. destruct (decide _) as [Hne|_]; [now destruct Hne | easy].
  - intros Hne. now destruct (decide _).
  - intros ->. destruct (decide _) as [_|Heq]; [easy|].
    exfalso. apply Heq. discriminate.
  - intros id ->. destruct (decide _) as [_|Heq]; [easy|].
    exfalso. apply Heq. discriminate.
Qed.

(** C7: when both tables hold a handler for the function code, the response
    and the fields of the server are those the native handler produced, and
    they are the same whatever the table of context-aware handlers holds. *)
Theorem native_handler_takes_precedence s request native external :
  lookup_code (function s) (GetFunction (frame request)) = Some native ->
  lookup_code (handlers s) (GetFunction (frame request)) = Some external ->
  (let '(data, exception, fields) := native (exported s) (frame request) in
   handle s request =
     (if decide (exception <> addressOf Success)
      then SetException (SetData (Copy (frame request)) data) exception
      else SetData (Copy (frame request)) data,
      withExported s fields))
  /\ forall s',
       exported s' = exported s -> function s' = function s ->
       fst (handle s' request) = fst (handle s request)
       /\ exported (snd (handle s' request))
          = exported (snd (handle s request)).
Proof.
  intros Hnative _.
  destruct (native (exported s) (frame request)) as [[data exception] fields]
    eqn:Hcall.
  split; [exact (handle_native _ _ _ _ _ _ Hnative Hcall)|].
  intros s' Hexp Hfun.
  rewrite (handle_native s _ _ _ _ _ Hnative Hcall).
  rewrite <- Hfun in Hnative. rewrite <- Hexp in Hcall.
  rewrite (handle_native s' _ _ _ _ _ Hnative Hcall).
  split; reflexivity.
Qed.

(** C9: the server [NewServer] returns has no entry in either handler
    table, at any function code, and its four register banks are nil; it
    answers every request with the copy of the request frame marked with
    [IllegalFunction], and is left unchanged. *)
Theorem NewServer_has_no_handler (request : Request F) (code : uint8) :
  lookup_code (function (@NewServer F)) code = None
  /\ lookup_code (handlers (@NewServer F)) code = None
  /\ DiscreteInputs (exported (@NewServer F)) = None
  /\ Coils (exported (@NewServer F)) = None
  /\ HoldingRegisters (exported (@NewServer F)) = None
  /\ InputRegisters (exported (@NewServer F)) = None
  /\ handle NewServer request
     = (SetException (Copy (frame request)) (addressOf IllegalFunction),
        NewServer).
Proof.
  assert (Hf : forall c, lookup_code (function (@NewServer F)) c = None)
    by (intros c; apply lookup_code_replicate).
  assert (Hh : forall c, lookup_code (handlers (@NewServer F)) c = None)
    by (intros c; apply lookup_code_replicate).
  split; [apply Hf|]. split; [apply Hh|].
  do 4 (split; [reflexivity|]).
  apply handle_no_handler; [apply Hf | apply Hh].
Qed.

End Dispatch.

(** ** Exception frames on the stream *)

Section Stream.
Implicit Types (s : Server TCP.Frame) (request : Request TCP.Frame).

(** C5: when the handler invoked for a request returns the address of a
    variable other than [Success], the response has the function code of the
    request with the bit 0x80 set and a payload of exactly one byte, the
    value of that variable, whatever data the handler returned with it; on
    the wire the frame ends with these two bytes. *)
Theorem exception_response_encoding s request data (v : ExceptionVar) :
  returns s request data (addressOf v) ->
  v <> Success ->
  let response := fst (handle s request) in
  TCP.FunctionCode response
    = Z.lor (TCP.FunctionCode (frame request)) 0x80
  /\ TCP.Payload response = [valueOf v]
  /\ Bytes response
     = TCP.put16 (TCP.TransactionId (frame request))
       ++ TCP.put16 (TCP.ProtocolId (frame request))
       ++ TCP.put16 3
       ++ [TCP.UnitId (frame request);
           Z.lor (TCP.FunctionCode (frame request)) 0x80;
           valueOf v].
Proof.
  intros Hret Hv response. subst response.
  rewrite (handle_returns _ _ _ _ Hret).
  destruct (decide (addressOf v <> addressOf Success)) as [_|Heq].
  - repeat split.
  - exfalso. apply Heq. congruence.
Qed.

Lemma exception_response_encoding_witness :
  let response :=
    fst (handle (Sample.withNative (addressOf Sample.deviceFailure))
                (Sample.request Sample.readHolding)) in
  TCP.FunctionCode response = 0x83
  /\ TCP.Payload response = [4]
  /\ Bytes response = [0; 1; 0; 0; 0; 3; 1; 0x83; 4].
Proof.
  apply (exception_response_encoding
           (Sample.withNative (addressOf Sample.deviceFailure))
           (Sample.request Sample.readHolding)
           [0xAA; 0xBB] Sample.deviceFailure).
  - left. exists (Sample.native (addressOf Sample.deviceFailure)).
    exists zeroExported. split; reflexivity.
  - discriminate.
Defined.

(** The scenario of the unknown function: function code 99 and no handler
    registered. *)
Lemma unknown_function_on_the_wire :
  let response :=
    fst (handle NewServer (Sample.request Sample.unknown)) in
  TCP.FunctionCode response = Z.lor 99 0x80
  /\ TCP.Payload response = [0x01]
  /\ Bytes response = [0; 2; 0; 0; 0; 3; 1; 227; 1].
Proof. repeat split. Qed.

Lemma unknown_function_is_IllegalFunction_witness :
  handle NewServer (Sample.request Sample.unknown)
    = (SetException (Copy Sample.unknown) (addressOf IllegalFunction),
       NewServer)
  /\ deref (addressOf IllegalFunction) = Some 0x01.
Proof.
  apply (unknown_function_is_IllegalFunction
           NewServer (Sample.request Sample.unknown)); reflexivity.
Defined.

Lemma SetException_unless_Success_itself_witness :
  fst (handle (Sample.withNative (addressOf Sample.zero))
              (Sample.request Sample.readHolding))
    = SetException (SetData (Copy Sample.readHolding) [0xAA; 0xBB])
        (addressOf Sample.zero)
  /\ TCP.FunctionCode
       (fst (handle (Sample.withNative (addressOf Sample.zero))
                    (Sample.request Sample.readHolding))) = 0x83
  /\ fst (handle (Sample.withNative (addressOf Success))
                 (Sample.request Sample.readHolding))
    = SetData (Copy Sample.readHolding) [0xAA; 0xBB].
Proof.
  assert (Hzero :
    fst (handle (Sample.withNative (addressOf Sample.zero))
                (Sample.request Sample.readHolding))
    = SetException (SetData (Copy Sample.readHolding) [0xAA; 0xBB])
        (addressOf Sample.zero)).
  { apply (SetException_unless_Success_itself
             (Sample.withNative (addressOf Sample.zero))
             (Sample.request Sample.readHolding) [0xAA; 0xBB]
             (addressOf Sample.zero)).
    - left. exists (Sample.native (addressOf Sample.zero)), zeroExported.
      split; reflexivity.
    - discriminate. }
  split; [exact Hzero|]. split; [rewrite Hzero; reflexivity|].
  apply (SetException_unless_Success_itself
           (Sample.withNative (addressOf Success))
           (Sample.request Sample.readHolding) [0xAA; 0xBB]
           (addressOf Success)).
  - left. exists (Sample.native (addressOf Success)), zeroExported.
    split; reflexivity.
  - reflexivity.
Defined.

Lemma native_handler_takes_precedence_witness :
  handle (Sample.withBoth (addressOf Success))
         (Sample.request Sample.readHolding)
    = (SetData (Copy Sample.readHolding) [0xAA; 0xBB],
       withExported (Sample.withBoth (addressOf Success)) zeroExported).
Proof.
  apply (native_handler_takes_precedence
           (Sample.withBoth (addressOf Success))
           (Sample.request Sample.readHolding)
           (Sample.native (addressOf Success))
           (Sample.external (addressOf IllegalFunction)));
    reflexivity.
Defined.

End Stream.

(** ** The hand-off between the connections and the serializer *)

(** The four moves: [Hexec : exec NewFrame l st = Some st'] is analysed by
    the label, the failing cases are closed, and [st'] is replaced by the
    state the move builds (for [Serve], once [handle] has been run). *)
Ltac exec_cases Hexec :=
  match type of Hexec with
  | exec _ ?l ?st = Some _ =>
      destruct l as [c|i0|i0|]; simpl in Hexec;
      [ injection Hexec as <-
      | destruct (conns st !! i0) as [g0|] eqn:Hg0; [|discriminate];
        destruct (advance _ i0 g0) as [[g0' events]|] eqn:Hadv;
          [|discriminate];
        injection Hexec as <-
      | destruct (conns st !! i0) as [[c0 p0]|] eqn:Hg0; [|discriminate];
        destruct p0 as [|u0 ro0|u0 ro0 r0|]; try discriminate;
        destruct (serving st) eqn:Hserving; [discriminate|];
        injection Hexec as <-
      | destruct (serving st) as [r0|] eqn:Hserving; [|discriminate] ]
  end.

Section Handoff.
Context {F : Type} `{Framer F}.
Variable NewFrame : list uint8 -> F + error.
Implicit Types (g : @Goroutine F) (st : @State F) (s : Server F).

Lemma run_reachable s schedule : forall st st',
  reachable NewFrame s st -> run NewFrame schedule st = Some st' ->
  reachable NewFrame s st'.
Proof.
  induction schedule as [|l schedule IH]; simpl; intros st st' Hst Hrun.
  - now inversion Hrun; subst.
  - destruct (exec NewFrame l st) as [st1|] eqn:Hexec; [|discriminate].
    eapply IH; [|exact Hrun]. eapply reachable_exec; eauto.
Qed.

(** What a move of a connection goroutine on its own adds to the trace. *)
Lemma advance_events i g g' events :
  advance NewFrame i g = Some (g', events) ->
  pendingOf g = []
  /\ (forall r, pendingOf g' = [r] -> conn r = i)
  /\ (forall j, sent j events = if decide (j = i) then pendingOf g' else [])
  /\ (forall j, written j events = [])
  /\ received events = []
  /\ answered events = [].
Proof.
  unfold advance, pendingOf. destruct g as [c p]; simpl.
  destruct p as [|user role|user role r|]; try discriminate.
  - unfold enter; simpl. intros [= Henter]. revert Henter.
    destruct (net.tlsConn c) as [t|].
    + destruct (tls.Handshake t) as [err|].
      * intros [= <- <-]; simpl.
        repeat split; intros; try discriminate;
          destruct (negb _); simpl; try reflexivity; now destruct (decide _).
      * destruct (peerIdentity _) as [u ro]. intros [= <- <-]; simpl.
        repeat split; intros; try discriminate; now destruct (decide _).
    + intros [= <- <-]; simpl.
      repeat split; intros; try discriminate; now destruct (decide _).
  - unfold iterate; simpl.
    destruct (net.Read c _) as [[[[c' packet] n] [err|]]|]; try discriminate.
    + intros [= <- <-]; simpl.
      repeat split; intros; try discriminate;
        destruct (decide (err <> io_EOF)); simpl; try reflexivity;
        now destruct (decide _).
    + destruct (NewFrame _) as [frame|err].
      * intros [= <- <-]; simpl. repeat split; try reflexivity.
        -- now intros r [= <-].
        -- intros j. unfold sent; simpl.
           destruct (decide (j = i)) as [->|Hne].
           ++ now rewrite Nat.eqb_refl.
           ++ destruct (Nat.eqb_spec i j); [congruence|reflexivity].
      * intros [= <- <-]; simpl.
        repeat split; intros; try discriminate; now destruct (decide _).
Qed.

Lemma sent_snoc i (tr events : list (@Event F)) :
  sent i (tr ++ events) = sent i tr ++ sent i events.
Proof. apply omap_app. Qed.

Lemma written_snoc i (tr events : list (@Event F)) :
  written i (tr ++ events) = written i tr ++ written i events.
Proof. apply omap_app. Qed.

Lemma received_snoc (tr events : list (@Event F)) :
  received (tr ++ events) = received tr ++ received events.
Proof. apply omap_app. Qed.

Lemma answered_snoc (tr events : list (@Event F)) :
  answered (tr ++ events) = answered tr ++ answered events.
Proof. apply omap_app. Qed.

(** Every request sent on a connection is written, in the hands of
    [handler], or still at the send, in this order; [handler] holds the one
    request it received and has not answered. *)
Lemma pipeline_invariant s st :
  reachable NewFrame s st ->
  (forall i g r, conns st !! i = Some g -> pendingOf g = [r] -> conn r = i)
  /\ (forall i,
        sent i (trace st)
        = written i (trace st) ++ inflight i st ++ pending i st)
  /\ received (trace st)
     = answered (trace st)
       ++ match serving st with Some r => [r] | None => [] end.
Proof.
  induction 1 as [|st l st' Hreach (Hconn & Hsent & Hrecv) Hexec].
  - split; [|split]; easy.
  - exec_cases Hexec.
    + (* Accept *)
      unfold pending, inflight; simpl. split; [|split].
      * intros i g r Hg. apply lookup_app_Some in Hg as [Hg|[_ Hg]].
        -- now apply Hconn.
        -- destruct (i - length (conns st))%nat; [|discriminate].
           injection Hg as <-. discriminate.
      * intros i. rewrite sent_snoc, written_snoc; simpl.
        rewrite !app_nil_r, Hsent. unfold pending, inflight.
        f_equal. f_equal.
        destruct (conns st !! i) as [g|] eqn:Hg.
        -- now rewrite (lookup_app_l_Some _ _ _ _ Hg).
        -- apply lookup_ge_None in Hg.
           rewrite lookup_app_r by exact Hg.
           now destruct (i - length (conns st))%nat.
      * now rewrite received_snoc, answered_snoc, !app_nil_r.
    + (* Run *)
      destruct (advance_events _ _ _ _ Hadv)
        as (Hnone & Hmine & Hs & Hw & Hr & Ha).
      assert (Hlt : (i0 < length (conns st))%nat)
        by (eapply lookup_lt_Some; eassumption).
      unfold pending, inflight; simpl. split; [|split].
      * intros i g1 r Hg1.
        destruct (decide (i = i0)) as [->|Hne].
        -- rewrite list_lookup_insert_eq in Hg1 by exact Hlt.
           injection Hg1 as <-. apply Hmine.
        -- rewrite list_lookup_insert_ne in Hg1 by congruence.
           now apply Hconn.
      * intros i. rewrite sent_snoc, written_snoc, Hs, Hw, app_nil_r, Hsent.
        unfold pending, inflight. rewrite <- !app_assoc. do 2 f_equal.
        destruct (decide (i = i0)) as [->|Hne].
        -- rewrite list_lookup_insert_eq by exact Hlt.
           now rewrite Hg0, Hnone.
        -- rewrite list_lookup_insert_ne by congruence.
           now rewrite app_nil_r.
      * now rewrite received_snoc, answered_snoc, Hr, Ha, !app_nil_r.
    + (* Handoff *)
      assert (Hlt : (i0 < length (conns st))%nat)
        by (eapply lookup_lt_Some; eassumption).
      assert (Hr : conn r0 = i0) by (eapply Hconn; [exact Hg0|reflexivity]).
      unfold pending, inflight; simpl. split; [|split].
      * intros i g1 r1 Hg1.
        destruct (decide (i = i0)) as [->|Hne].
        -- rewrite list_lookup_insert_eq in Hg1 by exact Hlt.
           injection Hg1 as <-. discriminate.
        -- rewrite list_lookup_insert_ne in Hg1 by congruence.
           now apply Hconn.
      * intros i. rewrite sent_snoc, written_snoc; simpl.
        rewrite !app_nil_r, Hsent. unfold pending, inflight.
        rewrite Hserving; simpl. f_equal.
        destruct (decide (i = i0)) as [->|Hne].
        -- rewrite list_lookup_insert_eq by exact Hlt.
           rewrite Hg0, Hr, Nat.eqb_refl. reflexivity.
        -- rewrite list_lookup_insert_ne by congruence.
           rewrite Hr. destruct (Nat.eqb_spec i0 i); [congruence|reflexivity].
      * rewrite received_snoc, answered_snoc, Hrecv; simpl.
        now rewrite !app_nil_r.
    + (* Serve *)
      destruct (handle (server st) r0) as [response s'].
      injection Hexec as <-.
      unfold pending, inflight; simpl. split; [|split].
      * exact Hconn.
      * intros i. rewrite sent_snoc, written_snoc; simpl.
        rewrite app_nil_r, Hsent. unfold pending, inflight.
        rewrite Hserving, <- !app_assoc. f_equal.
        now destruct (conn r0 =? i)%nat.
      * rewrite received_snoc, answered_snoc, Hrecv; simpl.
        now rewrite <- app_assoc.
Qed.

(** C2: on every connection the responses are written in the order in which
    its requests were read and sent: the requests answered so far are the
    first of the requests sent, in the same order, so the k-th response
    written on the connection answers the k-th request read on it. *)
Theorem responses_in_request_order s st i :
  reachable NewFrame s st ->
  written i (trace st) `prefix_of` sent i (trace st)
  /\ forall k r,
       written i (trace st) !! k = Some r -> sent i (trace st) !! k = Some r.
Proof.
  intros Hreach. destruct (pipeline_invariant _ _ Hreach) as (_ & Hsent & _).
  rewrite (Hsent i). split.
  - now apply prefix_app_r.
  - intros k r Hk. now apply lookup_app_l_Some.
Qed.

(** C1, as the code has it: a goroutine at its send statement has no move of
    its own and stays there under every move of the others; the send
    completes in the hand-off, which takes place only while [handler] holds
    no request, that is when every request received before has its response
    written; all the requests sent on the connection before this one are
    then answered. *)
Theorem handoff_waits_for_previous_response s st i g user role r :
  reachable NewFrame s st ->
  conns st !! i = Some g ->
  pc g = AtSend user role r ->
  advance NewFrame i g = None
  /\ (forall l st',
        exec NewFrame l st = Some st' -> l <> Handoff i ->
        conns st' !! i = Some g)
  /\ (serving st <> None -> exec NewFrame (Handoff i) st = None)
  /\ (serving st = None ->
      exists st',
        exec NewFrame (Handoff i) st = Some st'
        /\ received (trace st) = answered (trace st)
        /\ sent i (trace st) = written i (trace st) ++ [r]
        /\ trace st' = trace st ++ [Received r]
        /\ serving st' = Some r
        /\ conns st' !! i
           = Some {| netConn := netConn g; pc := AtRead user role |}).
Proof.
  intros Hreach Hg Hpc.
  assert (Hlt : (i < length (conns st))%nat)
    by (eapply lookup_lt_Some; eassumption).
  split; [|split; [|split]].
  - unfold advance. now rewrite Hpc.
  - intros l st' Hexec Hl. destruct l as [c|j|j|]; simpl in Hexec.
    + injection Hexec as <-; simpl. now apply lookup_app_l_Some.
    + destruct (conns st !! j) as [gj|] eqn:Hgj; [|discriminate].
      destruct (advance NewFrame j gj) as [[gj' events]|] eqn:Hadv;
        [|discriminate].
      injection Hexec as <-; simpl.
      destruct (decide (j = i)) as [->|Hne].
      * rewrite Hg in Hgj. injection Hgj as <-.
        unfold advance in Hadv. now rewrite Hpc in Hadv.
      * now rewrite list_lookup_insert_ne.
    + destruct (conns st !! j) as [[c p]|] eqn:Hgj; [|discriminate].
      destruct p as [|u ro|u ro rj|]; try discriminate.
      destruct (serving st); [discriminate|].
      injection Hexec as <-; simpl.
      rewrite list_lookup_insert_ne; [exact Hg|congruence].
    + destruct (serving st) as [r0|]; [|discriminate].
      destruct (handle (server st) r0). now injection Hexec as <-.
  - intros Hbusy. simpl. rewrite Hg. destruct g as [c p]; simpl in Hpc.
    subst p. now destruct (serving st).
  - intros Hidle.
    destruct (pipeline_invariant _ _ Hreach) as (_ & Hsent & Hrecv).
    specialize (Hsent i). unfold inflight, pending in Hsent.
    rewrite Hidle, Hg in Hsent. unfold pendingOf in Hsent.
    rewrite Hpc in Hsent. rewrite Hidle, app_nil_r in Hrecv.
    destruct g as [c p]; simpl in Hpc; subst p.
    eexists. simpl. rewrite Hg, Hidle. split; [reflexivity|]. simpl.
    repeat split; try assumption.
    now rewrite list_lookup_insert_eq.
Qed.

End Handoff.

(** C1, as stated, fails: after the hand-off of its first request the
    goroutine reads the second one while [handler] still holds the first and
    has written nothing. *)
Lemma read_does_not_wait_for_response :
  ~ ReadWaitsForResponse NewTCPFrame (@NewServer TCP.Frame).
Proof.
  intros Hclaim.
  assert (Hreach :
    reachable NewTCPFrame NewServer (Sample.after Sample.secondRead)).
  { apply (run_reachable NewTCPFrame NewServer Sample.secondRead
             (boot NewServer)); [constructor|reflexivity]. }
  specialize (Hclaim _ Hreach
    [Accepted 0; ReadReturned 0 8 None; Decoding 0 Sample.packet;
     Sending Sample.request99; Received Sample.request99]
    0%nat 8 None
    [Decoding 0 Sample.packet; Sending Sample.request99] eq_refl).
  discriminate Hclaim.
Qed.

(** ** The read loop *)

Section ReadLoop.
Context {F : Type} `{Framer F}.
Variable NewFrame : list uint8 -> F + error.
Implicit Types (g : @Goroutine F) (st : @State F) (s : Server F).

(** What is left in the transport after a read into 512 bytes. *)
Lemma Read_data (c : net.Conn) bytes rest :
  net.input c = Data bytes :: rest ->
  net.Read c (replicate 512 0)
  = Some (net.withInput c
            (if (512 <? length bytes)%nat
             then Data (drop 512 bytes) :: rest else rest),
          take 512 bytes ++ drop (Nat.min 512 (length bytes))
                                 (replicate 512 0),
          Z.of_nat (Nat.min 512 (length bytes)), None).
Proof.
  intros Hin. unfold net.Read. rewrite Hin, length_replicate.
  destruct (Nat.ltb_spec 512 (length bytes)) as [Hlt|Hge].
  - now rewrite Nat.min_l by lia.
  - rewrite Nat.min_r by lia.
    now rewrite !(take_ge bytes) by lia.
Qed.

(** [packet[:n]] is what this read delivered. *)
Lemma packet_of_read (bytes : list uint8) :
  take (Z.to_nat (Z.of_nat (Nat.min 512 (length bytes))))
       (take 512 bytes ++ drop (Nat.min 512 (length bytes))
                               (replicate 512 0))
  = take 512 bytes.
Proof.
  rewrite Nat2Z.id. apply take_app_length'.
  rewrite length_take. lia.
Qed.

Lemma iterate_data i g user role bytes rest :
  net.input (netConn g) = Data bytes :: rest ->
  let c := net.withInput (netConn g)
             (if (512 <? length bytes)%nat
              then Data (drop 512 bytes) :: rest else rest) in
  let n := Z.of_nat (Nat.min 512 (length bytes)) in
  iterate NewFrame i g user role
  = Some
      match NewFrame (take 512 bytes) with
      | inr err =>
          ({| netConn := c; pc := Returned |},
           [ReadReturned i n None; Decoding i (take 512 bytes);
            Logged i (BadPacketError err); Closed i])
      | inl frame =>
          let request :=
            {| ctx := requestContext c user role; conn := i;
               frame := frame |} in
          ({| netConn := c; pc := AtSend user role request |},
           [ReadReturned i n None; Decoding i (take 512 bytes);
            Sending request])
      end.
Proof.
  intros Hin c n. unfold iterate. rewrite (Read_data _ _ _ Hin).
  cbv zeta. rewrite packet_of_read. now destruct (NewFrame _).
Qed.

Lemma iterate_fail i g user role err rest :
  net.input (netConn g) = Fail err :: rest ->
  iterate NewFrame i g user role
  = Some ({| netConn := net.withInput (netConn g) rest; pc := Returned |},
          [ReadReturned i 0 (Some err)]
          ++ (if decide (err = io_EOF) then []
              else [Logged i (ReadError err)])
          ++ [Closed i]).
Proof.
  intros Hin. unfold iterate, net.Read. rewrite Hin.
  destruct (decide (err <> io_EOF)) as [Hne|Heq];
    destruct (decide (err = io_EOF)) as [Heq'|Hne']; try reflexivity.
  - contradiction.
  - exfalso. apply Heq. exact Hne'.
Qed.

Lemma exec_Run st i g user role g' events :
  conns st !! i = Some g ->
  pc g = AtRead user role ->
  iterate NewFrame i g user role = Some (g', events) ->
  exec NewFrame (Run i) st
  = Some {| server := server st; conns := <[i := g']> (conns st);
            serving := serving st; trace := trace st ++ events |}.
Proof.
  intros Hg Hpc Hit. simpl. rewrite Hg. unfold advance.
  now rewrite Hpc, Hit.
Qed.

(** C8: when [conn.Read] fails, or when the packet read does not decode, the
    goroutine of the connection returns and the connection is closed.  A read
    error other than [io.EOF] is logged, [io.EOF] is not; the decode error is
    logged.  Nothing is sent to [handler] and nothing is written; the other
    connections, [handler] and the server are as they were. *)
Theorem failed_read_ends_that_connection_only st i g user role :
  conns st !! i = Some g ->
  pc g = AtRead user role ->
  (forall err rest,
     net.input (netConn g) = Fail err :: rest ->
     exists st',
       exec NewFrame (Run i) st = Some st'
       /\ trace st'
          = trace st
            ++ [ReadReturned i 0 (Some err)]
            ++ (if decide (err = io_EOF) then []
                else [Logged i (ReadError err)])
            ++ [Closed i]
       /\ (exists g', conns st' !! i = Some g' /\ pc g' = Returned
                      /\ advance NewFrame i g' = None)
       /\ (forall j, j <> i -> conns st' !! j = conns st !! j)
       /\ serving st' = serving st
       /\ server st' = server st)
  /\ (forall bytes rest err,
     net.input (netConn g) = Data bytes :: rest ->
     NewFrame (take 512 bytes) = inr err ->
     exists st',
       exec NewFrame (Run i) st = Some st'
       /\ trace st'
          = trace st
            ++ [ReadReturned i (Z.of_nat (Nat.min 512 (length bytes))) None;
                Decoding i (take 512 bytes);
                Logged i (BadPacketError err); Closed i]
       /\ (exists g', conns st' !! i = Some g' /\ pc g' = Returned
                      /\ advance NewFrame i g' = None)
       /\ (forall j, j <> i -> conns st' !! j = conns st !! j)
       /\ serving st' = serving st
       /\ server st' = server st).
Proof.
  intros Hg Hpc.
  assert (Hlt : (i < length (conns st))%nat)
    by (eapply lookup_lt_Some; eassumption).
  split.
  - intros err rest Hin. eexists.
    split; [exact (exec_Run _ _ _ _ _ _ _ Hg Hpc (iterate_fail _ _ _ _ _ _ Hin))|].
    simpl. repeat split.
    + eexists. rewrite list_lookup_insert_eq by exact Hlt.
      repeat split.
    + intros j Hne. now rewrite list_lookup_insert_ne.
  - intros bytes rest err Hin Hbad.
    pose proof (iterate_data i g user role _ _ Hin) as Hit.
    cbv zeta in Hit. rewrite Hbad in Hit. eexists.
    split; [exact (exec_Run _ _ _ _ _ _ _ Hg Hpc Hit)|].
    simpl. repeat split.
    + eexists. rewrite list_lookup_insert_eq by exact Hlt.
      repeat split.
    + intros j Hne. now rewrite list_lookup_insert_ne.
Qed.

Lemma decoded_snoc i (tr events : list (@Event F)) :
  decoded i (tr ++ events) = decoded i tr ++ decoded i events.
Proof. apply omap_app. Qed.

(** No packet handed to the decoder is longer than the buffer. *)
Lemma decoded_at_most_512 s st :
  reachable NewFrame s st ->
  forall i packet, In packet (decoded i (trace st)) ->
  (length packet <= 512)%nat.
Proof.
  induction 1 as [|st l st' Hreach IH Hexec]; intros i packet Hin.
  - destruct Hin.
  - exec_cases Hexec.
    + simpl in Hin. rewrite decoded_snoc, app_nil_r in Hin. eauto.
    + simpl in Hin.
      rewrite decoded_snoc in Hin. apply in_app_iff in Hin as [Hin|Hin];
        [eauto|].
      unfold advance in Hadv.
      destruct (pc g0) as [|user role|user role r|] eqn:Hpc;
        try discriminate.
      * injection Hadv as Hadv. unfold enter in Hadv.
        destruct (net.tlsConn (netConn g0)) as [t|].
        -- destruct (tls.Handshake t) as [err|].
           ++ injection Hadv as <- <-.
              destruct (negb _); destruct Hin.
           ++ destruct (peerIdentity _). injection Hadv as <- <-.
              destruct Hin.
        -- injection Hadv as <- <-. destruct Hin.
      * destruct (net.input (netConn g0)) as [|[bytes|err] rest] eqn:Hinput.
        -- unfold iterate, net.Read in Hadv. now rewrite Hinput in Hadv.
        -- rewrite (iterate_data _ _ _ _ _ _ Hinput) in Hadv.
           assert (Hlen : (length (take 512 bytes) <= 512)%nat)
             by (rewrite length_take; lia).
           destruct (NewFrame (take 512 bytes)); injection Hadv as <- <-;
             simpl in Hin; destruct (i0 =? i)%nat; simpl in Hin;
             try destruct Hin as [<-|[]]; try destruct Hin; exact Hlen.
        -- rewrite (iterate_fail _ _ _ _ _ _ Hinput) in Hadv.
           injection Hadv as <- <-.
           destruct (decide (err = io_EOF)); destruct Hin.
    + simpl in Hin. rewrite decoded_snoc, app_nil_r in Hin. eauto.
    + destruct (handle (server st) r0). injection Hexec as <-.
      simpl in Hin. rewrite decoded_snoc, app_nil_r in Hin. eauto.
Qed.

(** C10: one turn of the read loop hands to the decoder the bytes of one
    read, at most 512 of them, and nothing else: the first 512 bytes of what
    arrived, whatever was read before.  What did not fit stays in the
    transport for the next read.  A frame that continues in a later arrival,
    or that is longer than 512 bytes, is therefore not handed to the decoder
    whole; and no packet the decoder ever received on the connection is
    longer than 512 bytes. *)
Theorem one_read_one_frame s st i g user role bytes rest :
  reachable NewFrame s st ->
  conns st !! i = Some g ->
  pc g = AtRead user role ->
  net.input (netConn g) = Data bytes :: rest ->
  exists st' g',
    exec NewFrame (Run i) st = Some st'
    /\ conns st' !! i = Some g'
    /\ decoded i (trace st') = decoded i (trace st) ++ [take 512 bytes]
    /\ net.input (netConn g')
       = (if (512 <? length bytes)%nat
          then Data (drop 512 bytes) :: rest else rest)
    /\ (forall tail, tail <> [] -> take 512 bytes <> bytes ++ tail)
    /\ ((512 < length bytes)%nat -> take 512 bytes <> bytes)
    /\ (forall packet, In packet (decoded i (trace st')) ->
        (length packet <= 512)%nat).
Proof.
  intros Hreach Hg Hpc Hin.
  assert (Hlt : (i < length (conns st))%nat)
    by (eapply lookup_lt_Some; eassumption).
  pose proof (iterate_data i g user role _ _ Hin) as Hit. cbv zeta in Hit.
  destruct (NewFrame (take 512 bytes)) as [frame|err] eqn:Hdec;
    pose proof (exec_Run _ _ _ _ _ _ _ Hg Hpc Hit) as Hexec;
    eexists _, _; (split; [exact Hexec|]);
    (split; [simpl; now rewrite list_lookup_insert_eq by exact Hlt|]);
    (split; [simpl; rewrite decoded_snoc; simpl;
             now rewrite Nat.eqb_refl|]);
    (split; [reflexivity|]);
    (split; [intros tail Htail Heq;
             destruct tail as [|x tail]; [contradiction|];
             apply (f_equal length) in Heq;
             rewrite length_take, length_app, length_cons in Heq; lia|]);
    (split; [intros Hbig Heq; apply (f_equal length) in Heq;
             rewrite length_take in Heq; lia|]);
    apply (decoded_at_most_512 s); eapply reachable_exec; eassumption.
Qed.

End ReadLoop.

(** ** The identity of the peer *)





Section Identity.
Context {F : Type} `{Framer F}.
Variable NewFrame : list uint8 -> F + error.
Implicit Types (g : @Goroutine F) (st : @State F) (s : Server F).

(** A move of a connection goroutine keeps the connection and its identity;
    the request it brings to the send carries the context of that
    identity. *)
Lemma advance_identity i g g' events :
  advance NewFrame i g = Some (g', events) ->
  identityKnown g ->
  net.tlsConn (netConn g') = net.tlsConn (netConn g)
  /\ net.remoteHost (netConn g') = net.remoteHost (netConn g)
  /\ identityKnown g'
  /\ forall r, pendingOf g' = [r] ->
       ctx r = requestContext (netConn g') (identityOf (netConn g')).1
                              (identityOf (netConn g')).2.
Proof.
  unfold advance, identityKnown, pendingOf, identityOf.
  destruct g as [c p]; simpl.
  destruct p as [|user role|user role r|]; try discriminate.
  - intros [= Henter] _. revert Henter. unfold enter; simpl.
    destruct (net.tlsConn c) as [t|] eqn:Ht.
    + destruct (tls.Handshake t) as [err|].
      * intros [= <- <-]; simpl. repeat split; try easy.
      * destruct (peerIdentity _) as [u ro] eqn:Hid.
        intros [= <- <-]; simpl. rewrite Ht, Hid. repeat split; easy.
    + intros [= <- <-]; simpl. rewrite Ht. repeat split; easy.
  - intros Hit Hknown.
    destruct (net.input c) as [|[bytes|err] rest] eqn:Hinput.
    + unfold iterate, net.Read in Hit; simpl in Hit.
      now rewrite Hinput in Hit.
    + rewrite (iterate_data NewFrame i {| netConn := c; pc := AtRead user role |}
               user role bytes rest Hinput) in Hit.
      simpl in Hit. destruct (NewFrame (take 512 bytes)) as [frame|err];
        injection Hit as <- <-; simpl.
      * repeat split; try assumption.
        intros r [= <-]; simpl. now rewrite <- Hknown.
      * repeat split; easy.
    + rewrite (iterate_fail NewFrame i {| netConn := c; pc := AtRead user role |}
               user role err rest Hinput) in Hit.
      injection Hit as <- <-; simpl. repeat split; easy.
Qed.

Lemma requestContext_static (c c' : net.Conn) user role :
  net.remoteHost c' = net.remoteHost c ->
  requestContext c' user role = requestContext c user role.
Proof. unfold requestContext. now intros ->. Qed.

Lemma identityOf_static (c c' : net.Conn) :
  net.tlsConn c' = net.tlsConn c -> identityOf c' = identityOf c.
Proof. unfold identityOf. now intros ->. Qed.

Lemma pendingOf_In g r : In r (pendingOf g) -> pendingOf g = [r].
Proof.
  unfold pendingOf. destruct (pc g); simpl; try tauto.
  now intros [->|[]].
Qed.

(** Every request sent on a connection carries the context built from the
    identity of that connection. *)
Lemma identity_invariant s st :
  reachable NewFrame s st ->
  (forall i, (length (conns st) <= i)%nat -> sent i (trace st) = [])
  /\ forall i g,
       conns st !! i = Some g ->
       identityKnown g
       /\ forall r, In r (sent i (trace st)) ->
            ctx r = requestContext (netConn g) (identityOf (netConn g)).1
                                   (identityOf (netConn g)).2.
Proof.
  induction 1 as [|st l st' Hreach (Hout & Hin) Hexec].
  - split; [reflexivity|]. intros i g Hg. discriminate Hg.
  - exec_cases Hexec; simpl.
    + split.
      * intros i Hi. rewrite length_app in Hi; simpl in Hi.
        rewrite sent_snoc, app_nil_r. apply Hout. lia.
      * intros i g Hg. rewrite sent_snoc, app_nil_r.
        apply lookup_app_Some in Hg as [Hg|[Hi Hg]]; [now apply Hin|].
        destruct (i - length (conns st))%nat; [|discriminate].
        injection Hg as <-. split; [exact I|].
        rewrite (Hout i Hi). intros r [].
    + assert (Hlt : (i0 < length (conns st))%nat)
        by (eapply lookup_lt_Some; eassumption).
      destruct (advance_events _ _ _ _ _ Hadv) as (_ & _ & Hs & _).
      destruct (Hin _ _ Hg0) as (Hknown & Hctx).
      destruct (advance_identity _ _ _ _ Hadv Hknown)
        as (Htls & Hhost & Hknown' & Hnew).
      split.
      * intros i Hi. rewrite length_insert in Hi.
        rewrite sent_snoc, Hs, (Hout i Hi).
        destruct (decide (i = i0)); [lia|reflexivity].
      * intros i g Hg. rewrite sent_snoc, Hs.
        destruct (decide (i = i0)) as [->|Hne].
        -- rewrite list_lookup_insert_eq in Hg by exact Hlt.
           injection Hg as <-. split; [exact Hknown'|].
           intros r Hr. apply in_app_iff in Hr as [Hr|Hr].
           ++ rewrite (Hctx r Hr), (identityOf_static _ _ Htls).
              symmetry. now apply requestContext_static.
           ++ apply Hnew. now apply pendingOf_In.
        -- rewrite list_lookup_insert_ne in Hg by congruence.
           rewrite app_nil_r. now apply Hin.
    + assert (Hlt : (i0 < length (conns st))%nat)
        by (eapply lookup_lt_Some; eassumption).
      split.
      * intros i Hi. rewrite length_insert in Hi.
        rewrite sent_snoc, app_nil_r. now apply Hout.
      * intros i g Hg. rewrite sent_snoc, app_nil_r.
        destruct (decide (i = i0)) as [->|Hne].
        -- rewrite list_lookup_insert_eq in Hg by exact Hlt.
           injection Hg as <-. exact (Hin _ _ Hg0).
        -- rewrite list_lookup_insert_ne in Hg by congruence.
           now apply Hin.
    + destruct (handle (server st) r0). injection Hexec as <-; simpl.
      split.
      * intros i Hi. rewrite sent_snoc, app_nil_r. now apply Hout.
      * intros i g Hg. rewrite sent_snoc, app_nil_r. now apply Hin.
Qed.


End Identity.

(** ** The properties on sample schedules *)

Lemma after_reachable (schedule : list Label) :
  run NewTCPFrame schedule (boot NewServer) <> None ->
  reachable NewTCPFrame NewServer (Sample.after schedule).
Proof.
  intros Hrun. unfold Sample.after.
  destruct (run NewTCPFrame schedule (boot NewServer)) as [st|] eqn:E;
    [|contradiction].
  apply (run_reachable NewTCPFrame NewServer schedule (boot NewServer));
    [constructor|exact E].
Qed.

Lemma responses_in_request_order_witness :
  written 0 (trace (Sample.after Sample.bothAnswered))
    `prefix_of` sent 0 (trace (Sample.after Sample.bothAnswered))
  /\ written 0 (trace (Sample.after Sample.bothAnswered))
     = [Sample.request99; Sample.request99]
  /\ written 0 (trace (Sample.after Sample.secondRead))
       `prefix_of` sent 0 (trace (Sample.after Sample.secondRead))
  /\ written 0 (trace (Sample.after Sample.secondRead)) = [].
Proof.
  split; [|split; [reflexivity|split; [|reflexivity]]].
  - apply (responses_in_request_order NewTCPFrame NewServer
             (Sample.after Sample.bothAnswered) 0).
    apply after_reachable. discriminate.
  - apply (responses_in_request_order NewTCPFrame NewServer
             (Sample.after Sample.secondRead) 0).
    apply after_reachable. discriminate.
Defined.

Lemma handoff_waits_for_previous_response_witness :
  exists st',
    exec NewTCPFrame (Handoff 0) (Sample.after Sample.firstAtSend) = Some st'
    /\ received (trace (Sample.after Sample.firstAtSend))
       = answered (trace (Sample.after Sample.firstAtSend))
    /\ sent 0 (trace (Sample.after Sample.firstAtSend))
       = written 0 (trace (Sample.after Sample.firstAtSend))
         ++ [Sample.request99]
    /\ trace st'
       = trace (Sample.after Sample.firstAtSend)
         ++ [Received Sample.request99]
    /\ serving st' = Some Sample.request99
    /\ conns st' !! 0%nat
       = Some {| netConn := Sample.plain [Data Sample.packet];
                 pc := AtRead "" None |}.
Proof.
  apply (handoff_waits_for_previous_response NewTCPFrame NewServer
           (Sample.after Sample.firstAtSend) 0
           {| netConn := Sample.plain [Data Sample.packet];
              pc := AtSend "" None Sample.request99 |}
           "" None Sample.request99).
  - apply after_reachable. discriminate.
  - reflexivity.
  - reflexivity.
  - reflexivity.
Defined.

Lemma failed_read_ends_that_connection_only_witness :
  exists st',
    exec NewTCPFrame (Run 0) (Sample.after Sample.beforeReset) = Some st'
    /\ trace st'
       = trace (Sample.after Sample.beforeReset)
         ++ [ReadReturned 0 0 (Some Sample.reset)]
         ++ (if decide (Sample.reset = io_EOF) then []
             else [Logged 0 (ReadError Sample.reset)])
         ++ [Closed 0]
    /\ (exists g', conns st' !! 0%nat = Some g' /\ pc g' = Returned
                   /\ advance NewTCPFrame 0 g' = None)
    /\ (forall j, j <> 0%nat ->
        conns st' !! j = conns (Sample.after Sample.beforeReset) !! j)
    /\ serving st' = serving (Sample.after Sample.beforeReset)
    /\ server st' = server (Sample.after Sample.beforeReset).
Proof.
  refine (proj1 (failed_read_ends_that_connection_only NewTCPFrame
                   (Sample.after Sample.beforeReset) 0
                   {| netConn := Sample.plain [Fail Sample.reset];
                      pc := AtRead "" None |}
                   "" None _ _) Sample.reset [] _); reflexivity.
Defined.

Lemma one_read_one_frame_witness :
  exists st' g',
    exec NewTCPFrame (Run 0) (Sample.after Sample.beforeOversize) = Some st'
    /\ conns st' !! 0%nat = Some g'
    /\ decoded 0 (trace st')
       = decoded 0 (trace (Sample.after Sample.beforeOversize))
         ++ [take 512 Sample.oversize]
    /\ net.input (netConn g')
       = (if (512 <? length Sample.oversize)%nat
          then [Data (drop 512 Sample.oversize)] else [])
    /\ (forall tail, tail <> [] ->
        take 512 Sample.oversize <> Sample.oversize ++ tail)
    /\ ((512 < length Sample.oversize)%nat ->
        take 512 Sample.oversize <> Sample.oversize)
    /\ (forall packet, In packet (decoded 0 (trace st')) ->
        (length packet <= 512)%nat).
Proof.
  apply (one_read_one_frame NewTCPFrame NewServer
           (Sample.after Sample.beforeOversize) 0
           {| netConn := Sample.plain [Data Sample.oversize];
              pc := AtRead "" None |}
           "" None Sample.oversize []).
  - apply after_reachable. discriminate.
  - reflexivity.
  - reflexivity.
  - reflexivity.
Defined.



(** Likewise a peer whose own certificate has no role extension is given
    the role of a later certificate of its chain. *)
Lemma role_attached_without_peer_extension :
  context.Value
    (ctx (Chain.adminRequest)) "Modbus-Role" = Some "admin"%string
  /\ sent 0 (trace (Sample.after Chain.plainThenAuthority))
     = [Chain.adminRequest]
  /\ forall value, ~ carriesRole Sample.plainCert value.
Proof.
  split; [reflexivity|]. split; [reflexivity|].
  intros value (ext & [<-|[]] & Hid & _). discriminate Hid.
Qed.

(** ** A server without handlers, and the default server *)

Section Unregistered.
Context {F : Type} `{Framer F}.
Variable NewFrame : list uint8 -> F + error.

(** No move of the goroutines registers a handler: the server stays the one
    [NewServer] returned, and every response written is the frame marked with
    [IllegalFunction]. *)
Lemma NewServer_answers_IllegalFunction (st : @State F) :
  reachable NewFrame NewServer st ->
  server st = NewServer
  /\ forall r bytes,
       In (Wrote r bytes) (trace st) ->
       bytes = Bytes (SetException (Copy (frame r))
                                   (addressOf IllegalFunction)).
Proof.
  induction 1 as [|st l st' Hreach (Hserver & Hwrote) Hexec].
  - split; [reflexivity|]. intros r bytes [].
  - exec_cases Hexec; simpl.
    + split; [exact Hserver|].
      intros r bytes Hin. apply in_app_iff in Hin as [Hin|[Hin|[]]];
        [eauto|discriminate].
    + split; [exact Hserver|].
      intros r bytes Hin. apply in_app_iff in Hin as [Hin|Hin]; [eauto|].
      exfalso.
      destruct (advance_events _ _ _ _ _ Hadv) as (_ & _ & _ & _ & _ & Ha).
      assert (Hr : In r (answered events)).
      { unfold answered. apply list_elem_of_In, list_elem_of_omap.
        exists (Wrote r bytes). split; [now apply list_elem_of_In|easy]. }
      rewrite Ha in Hr. destruct Hr.
    + split; [exact Hserver|].
      intros r bytes Hin. apply in_app_iff in Hin as [Hin|[Hin|[]]];
        [eauto|discriminate].
    + rewrite Hserver in Hexec.
      rewrite (handle_no_handler NewServer r0) in Hexec
        by apply lookup_code_replicate.
      injection Hexec as <-; simpl. split; [reflexivity|].
      intros r bytes Hin. apply in_app_iff in Hin as [Hin|[Hin|[]]];
        [eauto|]. now injection Hin as <- <-.
Qed.

(** [NewServerWithDefaults], by contrast, has the eight default handlers
    and four allocated banks. *)
Lemma NewServerWithDefaults_has_handlers
    (h1 h2 h3 h4 h5 h6 h15 h16 : FunctionHandler F) :
  let s := NewServerWithDefaults h1 h2 h3 h4 h5 h6 h15 h16 in
  map (lookup_code (function s)) [1; 2; 3; 4; 5; 6; 15; 16]
    = [Some h1; Some h2; Some h3; Some h4; Some h5; Some h6; Some h15;
       Some h16]
  /\ lookup_code (function s) 99 = None
  /\ DiscreteInputs (exported s) = make 0 65536
  /\ Coils (exported s) = make 0 65536
  /\ HoldingRegisters (exported s) = make 0 65536
  /\ InputRegisters (exported s) = make 0 65536.
Proof. repeat split. Qed.

End Unregistered.

(** ** Registration and dispatch *)

Section Registration.
Context {F : Type} `{Framer F}.
Implicit Types (s : Server F) (request : Request F).

Lemma lookup_code_insert_ne {A} (table : list (option A)) (code code' : uint8)
    entry :
  0 <= code -> 0 <= code' -> code <> code' ->
  lookup_code (<[Z.to_nat code := entry]> table) code'
  = lookup_code table code'.
Proof.
  intros Hc Hc' Hne. unfold lookup_code.
  rewrite list_lookup_insert_ne by lia. reflexivity.
Qed.

(** [handle] looks at the server through the two entries of the function
    code and through the fields the handler receives. *)
Lemma handle_same_entries s s' request :
  lookup_code (function s') (GetFunction (frame request))
    = lookup_code (function s) (GetFunction (frame request)) ->
  lookup_code (handlers s') (GetFunction (frame request))
    = lookup_code (handlers s) (GetFunction (frame request)) ->
  exported s' = exported s ->
  fst (handle s' request) = fst (handle s request)
  /\ exported (snd (handle s' request)) = exported (snd (handle s request)).
Proof.
  intros Hf Hh He. unfold handle. rewrite Hf, Hh, He.
  destruct (lookup_code (function s) _) as [native|].
  - destruct (native _ _) as [[data exception] fields]. simpl. easy.
  - destruct (lookup_code (handlers s) _) as [external|].
    + destruct (external _ _) as [data exception]. simpl. easy.
    + simpl. easy.
Qed.

(** A native handler registered for a function code is the one [handle]
    invokes for the requests of that code, whatever was registered there
    before. *)
Theorem registered_handler_is_dispatched s code handler request :
  length (function s) = 256%nat ->
  0 <= code < 256 ->
  GetFunction (frame request) = code ->
  handle (RegisterFunctionHandler s code (Some handler)) request
  = let '(data, exception, fields) :=
      handler (exported s) (frame request) in
    (if decide (exception <> addressOf Success)
     then SetException (SetData (Copy (frame request)) data) exception
     else SetData (Copy (frame request)) data,
     withExported (RegisterFunctionHandler s code (Some handler)) fields).
Proof.
  intros Hlen Hcode Hfun.
  destruct (handler (exported s) (frame request)) as [[data exception] fields]
    eqn:Hcall.
  apply handle_native with (native := handler); [|exact Hcall].
  rewrite Hfun. simpl. apply lookup_code_insert. lia.
Qed.

(** Registering a handler of either kind for one function code changes
    nothing for the requests of another function code: same response, same
    fields of the server afterwards. *)
Theorem registration_leaves_other_codes s code native external request :
  0 <= code ->
  0 <= GetFunction (frame request) ->
  GetFunction (frame request) <> code ->
  (fst (handle (RegisterFunctionHandler s code native) request)
     = fst (handle s request)
   /\ exported (snd (handle (RegisterFunctionHandler s code native) request))
      = exported (snd (handle s request)))
  /\ (fst (handle (RegisterContextFunctionHandler s code external) request)
       = fst (handle s request)
      /\ exported
           (snd (handle (RegisterContextFunctionHandler s code external)
                        request))
         = exported (snd (handle s request))).
Proof.
  intros Hc Hc' Hne. split; apply handle_same_entries; simpl;
    try reflexivity; now apply lookup_code_insert_ne.
Qed.

(** Registering nil as the native handler of a function code removes it:
    the requests of that code go to the context-aware handler if there is
    one, and get [IllegalFunction] otherwise. *)
Theorem unregistered_native_falls_through s code request :
  length (function s) = 256%nat ->
  0 <= code < 256 ->
  GetFunction (frame request) = code ->
  let s' := RegisterFunctionHandler s code None in
  handle s' request
  = match lookup_code (handlers s) code with
    | Some external =>
        let '(data, exception) := external (ctx request) (frame request) in
        (if decide (exception <> addressOf Success)
         then SetException (SetData (Copy (frame request)) data) exception
         else SetData (Copy (frame request)) data,
         s')
    | None =>
        (SetException (Copy (frame request)) (addressOf IllegalFunction), s')
    end.
Proof.
  intros Hlen Hcode Hfun s'.
  assert (Hnone : lookup_code (function s') (GetFunction (frame request))
                  = None).
  { rewrite Hfun. simpl. apply lookup_code_insert. lia. }
  destruct (lookup_code (handlers s) code) as [external|] eqn:Hext.
  - destruct (external (ctx request) (frame request)) as [data exception]
      eqn:Hcall.
    apply handle_external with (external := external);
      [exact Hnone| |exact Hcall].
    now rewrite Hfun.
  - apply handle_no_handler; [exact Hnone|]. now rewrite Hfun.
Qed.

(** A context-aware handler registered for a function code that has a
    native handler is never invoked: responses and fields are as before.
    Without a native handler it is the one invoked, with the context of the
    request, and the response is built from what it returns. *)
Theorem context_handler_only_without_native s code external request :
  length (handlers s) = 256%nat ->
  0 <= code < 256 ->
  GetFunction (frame request) = code ->
  let s' := RegisterContextFunctionHandler s code (Some external) in
  (forall native,
     lookup_code (function s) code = Some native ->
     fst (handle s' request) = fst (handle s request)
     /\ exported (snd (handle s' request))
        = exported (snd (handle s request)))
  /\ (lookup_code (function s) code = None ->
      fst (handle s' request)
      = let '(data, exception) := external (ctx request) (frame request) in
        if decide (exception <> addressOf Success)
        then SetException (SetData (Copy (frame request)) data) exception
        else SetData (Copy (frame request)) data).
Proof.
  intros Hlen Hcode Hfun s'. split.
  - intros native Hnative.
    destruct (native (exported s) (frame request))
      as [[data exception] fields] eqn:Hcall.
    rewrite <- Hfun in Hnative.
    rewrite (handle_native s _ _ _ _ _ Hnative Hcall).
    rewrite (handle_native s' _ native _ _ _ Hnative Hcall).
    easy.
  - intros Hnone.
    destruct (external (ctx request) (frame request)) as [data exception]
      eqn:Hcall.
    rewrite (handle_external s' request external data exception);
      [reflexivity|now rewrite Hfun| |exact Hcall].
    rewrite Hfun. simpl. apply lookup_code_insert. lia.
Qed.

End Registration.

(** ** The serializer *)

Section Serializer.
Context {F : Type} `{Framer F}.
Variable NewFrame : list uint8 -> F + error.
Implicit Types (g : @Goroutine F) (st : @State F) (s : Server F).

Lemma serial_snoc s requests request :
  serial s (requests ++ [request])
  = let '(s1, written) := serial s requests in
    let '(response, s2) := handle s1 request in
    (s2, written ++ [Bytes response]).
Proof.
  revert s. induction requests as [|r requests IH]; intros s; simpl.
  - now destruct (handle s request).
  - destruct (handle s r) as [response s1]. rewrite IH.
    destruct (serial s1 requests) as [s2 written].
    now destruct (handle s2 request).
Qed.

Lemma responses_snoc (tr events : list (@Event F)) :
  responses (tr ++ events) = responses tr ++ responses events.
Proof. apply omap_app. Qed.

Lemma advance_responses i g g' events :
  advance NewFrame i g = Some (g', events) -> responses events = [].
Proof.
  unfold advance. destruct (pc g) as [|user role|user role r|] eqn:Hpc;
    try discriminate.
  - intros [= Henter]. revert Henter. unfold enter.
    destruct (net.tlsConn (netConn g)) as [t|].
    + destruct (tls.Handshake t) as [err|].
      * intros [= <- <-]. now destruct (negb _).
      * destruct (peerIdentity _). now intros [= <- <-].
    + now intros [= <- <-].
  - unfold iterate.
    destruct (net.Read _ _) as [[[[c' packet] n] [err|]]|]; try discriminate.
    + intros [= <- <-]. now destruct (decide _).
    + destruct (NewFrame _); now intros [= <- <-].
Qed.

(** Each [Serve] runs [handle] on the server the one before left. *)
Lemma serve_after_serve s st :
  reachable NewFrame s st ->
  serial s (answered (trace st)) = (server st, responses (trace st)).
Proof.
  induction 1 as [|st l st' Hreach IH Hexec].
  - reflexivity.
  - exec_cases Hexec; simpl.
    + now rewrite answered_snoc, responses_snoc, !app_nil_r.
    + destruct (advance_events _ _ _ _ _ Hadv) as (_ & _ & _ & _ & _ & Ha).
      rewrite answered_snoc, responses_snoc, Ha.
      rewrite (advance_responses _ _ _ _ Hadv). now rewrite !app_nil_r.
    + now rewrite answered_snoc, responses_snoc, !app_nil_r.
    + destruct (handle (server st) r0) as [response s'] eqn:Hhandle.
      injection Hexec as <-; simpl.
      rewrite answered_snoc, responses_snoc; simpl.
      rewrite serial_snoc, IH, Hhandle. reflexivity.
Qed.

(** Whatever the interleaving of the goroutines, the requests [handler]
    received are handled one after the other in the order it received them,
    none skipped and none twice: while [handler] waits on the channel the
    server and the bytes written are those of [handle] applied in turn to
    all the requests received, and while it holds a request, to all those
    received before it. *)
Theorem pipeline_is_a_sequential_run s st :
  reachable NewFrame s st ->
  match serving st with
  | None => serial s (received (trace st)) = (server st, responses (trace st))
  | Some r =>
      exists before,
        received (trace st) = before ++ [r]
        /\ serial s before = (server st, responses (trace st))
  end.
Proof.
  intros Hreach.
  destruct (pipeline_invariant NewFrame _ _ Hreach) as (_ & _ & Hrecv).
  pose proof (serve_after_serve _ _ Hreach) as Hserial.
  destruct (serving st) as [r|].
  - exists (answered (trace st)). split; [exact Hrecv|exact Hserial].
  - rewrite app_nil_r in Hrecv. now rewrite Hrecv.
Qed.

Lemma written_answered i (tr : list (@Event F)) :
  written i tr = List.filter (fun r => (conn r =? i)%nat) (answered tr).
Proof.
  induction tr as [|e tr IH]; [reflexivity|].
  destruct e; simpl; try exact IH.
  unfold written, answered in *; simpl.
  destruct (conn request =? i)%nat; simpl; now rewrite IH.
Qed.

(** [handler] holds at most one request: the requests received are those
    answered, in the same order, then the one in its hands.  The requests
    it received from a connection are the first ones that connection sent,
    all but the one still waiting at the send. *)
Theorem one_request_at_a_time s st :
  reachable NewFrame s st ->
  received (trace st)
    = answered (trace st)
      ++ match serving st with Some r => [r] | None => [] end
  /\ answered (trace st) `prefix_of` received (trace st)
  /\ (length (received (trace st)) <= S (length (answered (trace st))))%nat
  /\ forall i,
       sent i (trace st)
       = List.filter (fun r => (conn r =? i)%nat) (received (trace st))
         ++ pending i st.
Proof.
  intros Hreach.
  destruct (pipeline_invariant NewFrame _ _ Hreach) as (_ & Hsent & Hrecv).
  split; [exact Hrecv|]. split; [|split].
  - rewrite Hrecv. now apply prefix_app_r.
  - rewrite Hrecv, length_app. destruct (serving st); simpl; lia.
  - intros i. rewrite (Hsent i), Hrecv, List.filter_app, written_answered.
    rewrite <- app_assoc. do 2 f_equal. unfold inflight.
    destruct (serving st) as [r|]; [|reflexivity]. simpl.
    now destruct (conn r =? i)%nat.
Qed.

End Serializer.

(** ** The life of a connection *)

Section Connections.
Context {F : Type} `{Framer F}.
Variable NewFrame : list uint8 -> F + error.
Implicit Types (g : @Goroutine F) (st : @State F) (s : Server F).

(** What one move of a connection goroutine records, by program point. *)
Lemma advance_cases i g g' events :
  advance NewFrame i g = Some (g', events) ->
  netConn g' = netConn g /\ pc g = Spawned
    /\ ((exists t err, net.tlsConn (netConn g) = Some t
           /\ tls.Handshake t = Some err /\ pc g' = Returned
           /\ events = (if negb (String.eqb (Error err) "EOF")
                        then [Logged i (TLSHandshakeError err)] else [])
                       ++ [Closed i])
        \/ (exists user role, pc g' = AtRead user role /\ events = []
              /\ forall t, net.tlsConn (netConn g) = Some t ->
                           tls.Handshake t = None))
  \/ exists user role, pc g = AtRead user role
     /\ net.tlsConn (netConn g') = net.tlsConn (netConn g)
     /\ net.remoteHost (netConn g') = net.remoteHost (netConn g)
     /\ ((exists n err logs, pc g' = Returned
            /\ events = [ReadReturned i n (Some err)] ++ logs ++ [Closed i]
            /\ forall e, In e logs -> e = Logged i (ReadError err))
         \/ (exists n packet err, pc g' = Returned
            /\ events = [ReadReturned i n None; Decoding i packet;
                         Logged i (BadPacketError err); Closed i])
         \/ (exists n packet r, pc g' = AtSend user role r /\ conn r = i
            /\ events = [ReadReturned i n None; Decoding i packet;
                         Sending r])).
Proof.
  unfold advance. destruct g as [c p]; simpl.
  destruct p as [|user role|user role r|]; try discriminate.
  - intros [= Henter]. revert Henter. unfold enter; simpl.
    destruct (net.tlsConn c) as [t|] eqn:Ht.
    + destruct (tls.Handshake t) as [err|] eqn:Hshake.
      * intros [= <- <-]; simpl. left.
        split; [easy|]. split; [easy|]. left.
        exists t, err. easy.
      * destruct (peerIdentity _) as [u ro]. intros [= <- <-]; simpl. left.
        split; [easy|]. split; [easy|]. right. exists u, ro.
        repeat split. intros t' [= <-]. exact Hshake.
    + intros [= <- <-]; simpl. left.
      split; [easy|]. split; [easy|]. right.
      exists ""%string, None. repeat split. intros t' [=].
  - unfold iterate, net.Read; simpl. intros Hit. right. exists user, role.
    split; [reflexivity|].
    destruct (net.input c) as [|[bytes|err] rest]; [discriminate| |].
    + cbv zeta in Hit. destruct (NewFrame _) as [frame|err].
      * injection Hit as <- <-; simpl. repeat split.
        right. right. eexists _, _, _. repeat split.
      * injection Hit as <- <-; simpl. repeat split.
        right. left. eexists _, _, _. repeat split.
    + injection Hit as <- <-; simpl. repeat split. left.
      exists 0, err.
      exists (if decide (err <> io_EOF) then [Logged i (ReadError err)]
              else []).
      repeat split. intros e He. destruct (decide _); [|destruct He].
      now destruct He as [<-|[]].
Qed.

Lemma advance_connOf i g g' events :
  advance NewFrame i g = Some (g', events) ->
  forall e, In e events -> connOf e = i.
Proof.
  intros Hadv e He.
  destruct (advance_cases _ _ _ _ Hadv)
    as [(_ & _ & [(t & err & _ & _ & _ & ->)|(u & ro & _ & -> & _)])
       |(u & ro & _ & _ & _
         & [(n & err & logs & _ & -> & Hlogs)
           |[(n & packet & err & _ & ->)|(n & packet & r & _ & Hr & ->)]])].
  - destruct (negb _); simpl in He; intuition (subst; reflexivity).
  - destruct He.
  - simpl in He. destruct He as [<-|He]; [reflexivity|].
    apply in_app_iff in He as [He|[<-|[]]]; [|reflexivity].
    now rewrite (Hlogs e He).
  - simpl in He. intuition (subst; reflexivity).
  - simpl in He. destruct He as [<-|[<-|[<-|[]]]]; try reflexivity.
    exact Hr.
Qed.

(** Events are recorded, and requests are held, for accepted connections
    only. *)
Lemma events_of_accepted_connections s st :
  reachable NewFrame s st ->
  (forall r, serving st = Some r -> (conn r < length (conns st))%nat)
  /\ forall e, In e (trace st) -> (connOf e < length (conns st))%nat.
Proof.
  induction 1 as [|st l st' Hreach (Hheld & Hevents) Hexec].
  - split; [discriminate|]. intros e [].
  - pose proof (pipeline_invariant NewFrame _ _ Hreach) as (Hconn & _ & _).
    exec_cases Hexec; simpl.
    + rewrite length_app; simpl. split.
      * intros r Hr. specialize (Hheld r Hr). lia.
      * intros e He. apply in_app_iff in He as [He|[<-|[]]].
        -- specialize (Hevents e He). lia.
        -- simpl. lia.
    + assert (Hlt : (i0 < length (conns st))%nat)
        by (eapply lookup_lt_Some; eassumption).
      rewrite length_insert. split; [exact Hheld|].
      intros e He. apply in_app_iff in He as [He|He]; [eauto|].
      now rewrite (advance_connOf _ _ _ _ Hadv e He).
    + assert (Hlt : (i0 < length (conns st))%nat)
        by (eapply lookup_lt_Some; eassumption).
      assert (Hr : conn r0 = i0) by (eapply Hconn; [exact Hg0|reflexivity]).
      rewrite length_insert. split.
      * intros r [= <-]. now rewrite Hr.
      * intros e He. apply in_app_iff in He as [He|[<-|[]]]; [eauto|].
        simpl. now rewrite Hr.
    + destruct (handle (server st) r0). injection Hexec as <-; simpl.
      split; [discriminate|].
      intros e He. apply in_app_iff in He as [He|[<-|[]]]; [eauto|].
      simpl. now apply Hheld.
Qed.

Lemma sent_none i (tr : list (@Event F)) :
  (forall r, In (Sending r) tr -> conn r <> i) -> sent i tr = [].
Proof.
  induction tr as [|e tr IH]; intros Hnone; [reflexivity|].
  unfold sent in *. destruct e; simpl; try (apply IH; intros; apply Hnone;
    now right).
  destruct (Nat.eqb_spec (conn request) i) as [Heq|_].
  - exfalso. apply (Hnone request); [now left|exact Heq].
  - apply IH. intros r Hr. apply Hnone. now right.
Qed.

(** A connection whose TLS handshake fails is dropped before the read loop:
    its goroutine returns at once, logging the error unless its text is
    "EOF"; nothing is ever read, decoded, sent, received or written on it. *)
Theorem failed_handshake_drops_the_connection s st i g t err :
  reachable NewFrame s st ->
  conns st !! i = Some g ->
  net.tlsConn (netConn g) = Some t ->
  tls.Handshake t = Some err ->
  (pc g = Spawned \/ pc g = Returned)
  /\ (pc g = Spawned ->
      exec NewFrame (Run i) st
      = Some {| server := server st;
                conns := <[i := {| netConn := netConn g; pc := Returned |}]>
                           (conns st);
                serving := serving st;
                trace := trace st
                         ++ (if String.eqb (Error err) "EOF" then []
                             else [Logged i (TLSHandshakeError err)])
                         ++ [Closed i] |})
  /\ forall e, In e (trace st) -> connOf e = i ->
       e = Accepted i
       \/ (e = Logged i (TLSHandshakeError err) /\ Error err <> "EOF"%string)
       \/ e = Closed i.
Proof.
  intros Hreach. revert i g t err.
  induction Hreach as [|st l st' Hreach IH Hexec];
    intros i g t err Hg Ht Hshake.
  - discriminate Hg.
  - assert (Hstep : forall g', pc g' = Spawned -> netConn g' = netConn g ->
      forall st1, conns st1 !! i = Some g' ->
      exec NewFrame (Run i) st1
      = Some {| server := server st1;
                conns := <[i := {| netConn := netConn g; pc := Returned |}]>
                           (conns st1);
                serving := serving st1;
                trace := trace st1
                         ++ (if String.eqb (Error err) "EOF" then []
                             else [Logged i (TLSHandshakeError err)])
                         ++ [Closed i] |}).
    { intros g' Hpc Hnet st1 Hg'. simpl. rewrite Hg'. unfold advance.
      rewrite Hpc. unfold enter. rewrite Hnet, Ht, Hshake.
      now destruct (String.eqb _ _). }
    pose proof (pipeline_invariant NewFrame _ _ Hreach) as (Hconn & Hsent & _).
    pose proof (events_of_accepted_connections _ _ Hreach) as (_ & Hacc).
    exec_cases Hexec; cbn [conns trace server serving] in *.
    + apply lookup_app_Some in Hg as [Hg|[Hi Hg]].
      * destruct (IH _ _ _ _ Hg Ht Hshake) as (Hpc & _ & Hev).
        split; [exact Hpc|]. split.
        -- intros Hsp. apply (Hstep g Hsp eq_refl).
           simpl. now apply lookup_app_l_Some.
        -- intros e He Hi. apply in_app_iff in He as [He|[<-|[]]];
             [now apply Hev|]. left. simpl in Hi. now rewrite Hi.
      * destruct (i - length (conns st))%nat eqn:Hd; [|discriminate].
        injection Hg as <-. cbn [netConn pc] in *. split; [now left|]. split.
        -- intros _.
           apply (Hstep {| netConn := c; pc := Spawned |} eq_refl eq_refl).
           simpl. rewrite lookup_app_r by exact Hi. now rewrite Hd.
        -- intros e He Hci. apply in_app_iff in He as [He|[<-|[]]].
           ++ specialize (Hacc e He). lia.
           ++ left. simpl in Hci. now rewrite Hci.
    + assert (Hlt : (i0 < length (conns st))%nat)
        by (eapply lookup_lt_Some; eassumption).
      destruct (decide (i = i0)) as [->|Hne].
      * rewrite list_lookup_insert_eq in Hg by exact Hlt.
        injection Hg as ->.
        destruct (advance_cases _ _ _ _ Hadv)
          as [(Hnet & Hsp & [(t' & err' & Ht' & Hs' & Hret & ->)
                            |(u & ro & _ & _ & Hok)])
             |(u & ro & Hpc & _)].
        -- rewrite Hnet in Ht. rewrite Ht in Ht'. injection Ht' as <-.
           rewrite Hshake in Hs'. injection Hs' as <-.
           destruct (IH _ _ _ _ Hg0 Ht Hshake) as (_ & _ & Hev).
           split; [now right|]. split; [intros Hsp'; congruence|].
           intros e He Hci. apply in_app_iff in He as [He|He];
             [now apply Hev|].
           destruct (String.eqb_spec (Error err) "EOF") as [Heof|Hneof];
             simpl in He.
           ++ destruct He as [<-|[]]. now right; right.
           ++ destruct He as [<-|[<-|[]]]; [right; left|right; right]; easy.
        -- rewrite Hnet in Ht. specialize (Hok _ Ht). congruence.
        -- destruct (advance_identity _ _ _ _ _ Hadv) as [Htls _].
           { unfold identityKnown. rewrite Hpc.
             destruct (identity_invariant NewFrame _ _ Hreach) as (_ & Hin).
             destruct (Hin _ _ Hg0) as (Hk & _). unfold identityKnown in Hk.
             now rewrite Hpc in Hk. }
           rewrite Htls in Ht.
           destruct (IH _ _ _ _ Hg0 Ht Hshake) as ([Hsp|Hret] & _);
             congruence.
      * rewrite list_lookup_insert_ne in Hg by congruence.
        destruct (IH _ _ _ _ Hg Ht Hshake) as (Hpc & _ & Hev).
        split; [exact Hpc|]. split.
        -- intros Hsp. apply (Hstep g Hsp eq_refl). simpl.
           now rewrite list_lookup_insert_ne by congruence.
        -- intros e He Hci. apply in_app_iff in He as [He|He];
             [now apply Hev|].
           rewrite (advance_connOf _ _ _ _ Hadv e He) in Hci. congruence.
    + assert (Hlt : (i0 < length (conns st))%nat)
        by (eapply lookup_lt_Some; eassumption).
      assert (Hr : conn r0 = i0) by (eapply Hconn; [exact Hg0|reflexivity]).
      destruct (decide (i = i0)) as [->|Hne].
      * rewrite list_lookup_insert_eq in Hg by exact Hlt.
        injection Hg as <-. simpl in Ht.
        destruct (IH _ _ _ _ Hg0 Ht Hshake) as ([Hsp|Hret] & _);
          discriminate.
      * rewrite list_lookup_insert_ne in Hg by congruence.
        destruct (IH _ _ _ _ Hg Ht Hshake) as (Hpc & _ & Hev).
        split; [exact Hpc|]. split.
        -- intros Hsp. apply (Hstep g Hsp eq_refl). simpl.
           now rewrite list_lookup_insert_ne by congruence.
        -- intros e He Hci. apply in_app_iff in He as [He|[<-|[]]];
             [now apply Hev|]. simpl in Hci. congruence.
    + destruct (handle (server st) r0). injection Hexec as <-.
      cbn [conns trace server serving] in *.
      destruct (IH _ _ _ _ Hg Ht Hshake) as (Hpc & _ & Hev).
      split; [exact Hpc|]. split.
      * intros Hsp. apply (Hstep g Hsp eq_refl). exact Hg.
      * intros e He Hci. apply in_app_iff in He as [He|[<-|[]]];
          [now apply Hev|]. simpl in Hci. exfalso.
        assert (Hnone : sent i (trace st) = []).
        { apply sent_none. intros r Hr Hcr.
          destruct (Hev _ Hr Hcr) as [Hx|[[Hx _]|Hx]]; discriminate. }
        specialize (Hsent i). rewrite Hnone in Hsent. unfold inflight in Hsent.
        rewrite Hserving, Hci, Nat.eqb_refl in Hsent.
        symmetry in Hsent. apply app_eq_nil in Hsent as [_ Hsent].
        discriminate.
Qed.

End Connections.

Section Returned.
Context {F : Type} `{Framer F}.
Variable NewFrame : list uint8 -> F + error.
Implicit Types (g : @Goroutine F) (st : @State F) (s : Server F).

Lemma closes_snoc i (tr events : list (@Event F)) :
  closes i (tr ++ events) = (closes i tr + closes i events)%nat.
Proof. unfold closes. now rewrite omap_app, length_app. Qed.

Lemma closes_none i (tr : list (@Event F)) :
  (forall e, In e tr -> e <> Closed i) -> closes i tr = 0%nat.
Proof.
  induction tr as [|e tr IH]; intros Hnone; [reflexivity|].
  assert (Htr : closes i tr = 0%nat)
    by (apply IH; intros e' He'; apply Hnone; now right).
  unfold closes in *. destruct e; simpl; try exact Htr.
  destruct (Nat.eqb_spec i0 i) as [Heq|_]; [|exact Htr].
  exfalso. apply (Hnone (Closed i0)); [now left|now rewrite Heq].
Qed.

Lemma advance_closes i g g' events :
  advance NewFrame i g = Some (g', events) ->
  pc g <> Returned
  /\ closes i events = match pc g' with Returned => 1%nat | _ => 0%nat end.
Proof.
  intros Hadv.
  destruct (advance_cases NewFrame _ _ _ _ Hadv)
    as [(_ & Hsp & [(t & err & _ & _ & -> & ->)|(u & ro & -> & -> & _)])
       |(u & ro & Hpc & _ & _
         & [(n & err & logs & -> & -> & Hlogs)
           |[(n & packet & err & -> & ->)|(n & packet & r & -> & _ & ->)]])];
    (split; [congruence|]).
  - unfold closes. destruct (negb _); simpl; now rewrite Nat.eqb_refl.
  - reflexivity.
  - rewrite !closes_snoc. rewrite (closes_none i logs).
    + unfold closes; simpl. now rewrite Nat.eqb_refl.
    + intros e He. now rewrite (Hlogs e He).
  - unfold closes; simpl. now rewrite Nat.eqb_refl.
  - reflexivity.
Qed.

(** The connection of a goroutine is closed once, when the goroutine
    returns, and a goroutine that has returned stays so: nothing is read,
    sent or received on its connection any more.  [handler] may still write
    to it the response to a request it received before. *)
Theorem connection_closed_once_on_return s st i g :
  reachable NewFrame s st ->
  conns st !! i = Some g ->
  closes i (trace st) = match pc g with Returned => 1%nat | _ => 0%nat end
  /\ (pc g = Returned ->
      forall l st',
        exec NewFrame l st = Some st' ->
        conns st' !! i = Some g
        /\ exists events,
             trace st' = trace st ++ events
             /\ forall e, In e events -> connOf e = i ->
                  exists r bytes, e = Wrote r bytes).
Proof.
  intros Hreach Hg. split.
  - revert i g Hg.
    induction Hreach as [|st l st' Hreach IH Hexec]; intros i g Hg.
    + discriminate Hg.
    + pose proof (events_of_accepted_connections NewFrame _ _ Hreach)
        as (_ & Hacc).
      exec_cases Hexec; cbn [conns trace] in *.
      * rewrite closes_snoc, Nat.add_0_r.
        apply lookup_app_Some in Hg as [Hg|[Hi Hg]]; [now apply IH|].
        destruct (i - length (conns st))%nat; [|discriminate].
        injection Hg as <-. simpl. apply closes_none.
        intros e He ->. specialize (Hacc _ He). simpl in Hacc. lia.
      * assert (Hlt : (i0 < length (conns st))%nat)
          by (eapply lookup_lt_Some; eassumption).
        rewrite closes_snoc.
        destruct (decide (i = i0)) as [->|Hne].
        -- rewrite list_lookup_insert_eq in Hg by exact Hlt.
           injection Hg as ->.
           destruct (advance_closes _ _ _ _ Hadv) as (Hlive & ->).
           rewrite (IH _ _ Hg0). now destruct (pc g0).
        -- rewrite list_lookup_insert_ne in Hg by congruence.
           rewrite (IH _ _ Hg), (closes_none i events); [lia|].
           intros e He ->.
           pose proof (advance_connOf NewFrame _ _ _ _ Hadv _ He) as Hc.
           simpl in Hc. congruence.
      * assert (Hlt : (i0 < length (conns st))%nat)
          by (eapply lookup_lt_Some; eassumption).
        rewrite closes_snoc, Nat.add_0_r.
        destruct (decide (i = i0)) as [->|Hne].
        -- rewrite list_lookup_insert_eq in Hg by exact Hlt.
           injection Hg as <-. now rewrite (IH _ _ Hg0).
        -- rewrite list_lookup_insert_ne in Hg by congruence.
           now apply IH.
      * destruct (handle (server st) r0). injection Hexec as <-.
        cbn [conns trace] in *. rewrite closes_snoc, Nat.add_0_r.
        now apply IH.
  - intros Hpc l st' Hexec.
    assert (Hlt : (i < length (conns st))%nat)
      by (eapply lookup_lt_Some; eassumption).
    pose proof (pipeline_invariant NewFrame _ _ Hreach) as (Hconn & _ & _).
    exec_cases Hexec; cbn [conns trace].
    + split; [now apply lookup_app_l_Some|]. eexists. split; [reflexivity|].
      intros e [<-|[]] Hc. simpl in Hc. lia.
    + destruct (decide (i = i0)) as [->|Hne].
      * rewrite Hg in Hg0. injection Hg0 as <-.
        destruct (advance_closes _ _ _ _ Hadv) as (Hlive & _). contradiction.
      * split; [now rewrite list_lookup_insert_ne by congruence|].
        eexists. split; [reflexivity|]. intros e He Hc.
        rewrite (advance_connOf NewFrame _ _ _ _ Hadv _ He) in Hc.
        congruence.
    + destruct (decide (i = i0)) as [->|Hne].
      * rewrite Hg in Hg0. injection Hg0 as ->. discriminate Hpc.
      * split; [now rewrite list_lookup_insert_ne by congruence|].
        eexists. split; [reflexivity|]. intros e [<-|[]] Hc. simpl in Hc.
        rewrite (Hconn _ _ r0 Hg0 eq_refl) in Hc. congruence.
    + destruct (handle (server st) r0) as [response s']. injection Hexec as <-.
      cbn [conns trace]. split; [exact Hg|].
      eexists. split; [reflexivity|]. intros e [<-|[]] _. eauto.
Qed.


Lemma Value_requestContext (c : net.Conn) user role key :
  context.Value (requestContext c user role) key
  = match role with
    | Some role' =>
        if String.eqb "Modbus-Role" key
        then Some (string_of_list_byte role')
        else if String.eqb "Modbus-User" key then Some user
        else if String.eqb "X-Forwarded-For" key then net.remoteHost c
        else None
    | None =>
        if String.eqb "X-Forwarded-For" key then net.remoteHost c else None
    end.
Proof.
  unfold requestContext, context.WithValue, context.Background.
  destruct (net.remoteHost c) as [host|], role as [role'|];
    cbn [context.Value];
    repeat destruct (String.eqb _ key); reflexivity.
Qed.

(** Every request carries the remote host of its connection under
    "X-Forwarded-For" (nothing when the remote address has no host and
    port), a user exactly when it carries a role, and nothing under any
    other key; on a connection that is not over TLS it carries neither user
    nor role. *)
Theorem request_context_contents s st i g r :
  reachable NewFrame s st ->
  conns st !! i = Some g ->
  In r (sent i (trace st)) ->
  context.Value (ctx r) "X-Forwarded-For" = net.remoteHost (netConn g)
  /\ (context.Value (ctx r) "Modbus-User" = None
      <-> context.Value (ctx r) "Modbus-Role" = None)
  /\ (net.tlsConn (netConn g) = None ->
      context.Value (ctx r) "Modbus-User" = None
      /\ context.Value (ctx r) "Modbus-Role" = None)
  /\ (forall key,
        key <> "X-Forwarded-For"%string -> key <> "Modbus-User"%string ->
        key <> "Modbus-Role"%string ->
        context.Value (ctx r) key = None).
Proof.
  intros Hreach Hg Hr.
  destruct (identity_invariant NewFrame _ _ Hreach) as (_ & Hin).
  destruct (Hin _ _ Hg) as (_ & Hctx). rewrite (Hctx r Hr).
  rewrite !Value_requestContext.
  split; [|split; [|split]].
  - now destruct (identityOf (netConn g)).2.
  - destruct (identityOf (netConn g)).2; simpl; [|easy]. split; discriminate.
  - intros Htls. unfold identityOf. rewrite Htls. simpl. easy.
  - intros key Hk1 Hk2 Hk3. rewrite Value_requestContext.
    apply String.eqb_neq in Hk1, Hk2, Hk3.
    rewrite String.eqb_sym in Hk1. rewrite String.eqb_sym in Hk2.
    rewrite String.eqb_sym in Hk3. rewrite Hk1, Hk2, Hk3.
    now destruct (identityOf (netConn g)).2.
Qed.

End Returned.

(** ** The default server *)

Section DefaultServer.
Context {F : Type} `{Framer F}.
Variables h1 h2 h3 h4 h5 h6 h15 h16 : FunctionHandler F.

(** [NewServerWithDefaults] dispatches the eight default function codes and
    no other: a request with any other code is answered with
    [IllegalFunction] and leaves the server as it is.  Its four banks have
    65536 entries, all zero. *)
Theorem NewServerWithDefaults_dispatch (request : Request F) :
  let s := NewServerWithDefaults h1 h2 h3 h4 h5 h6 h15 h16 in
  (~ In (GetFunction (frame request)) [1; 2; 3; 4; 5; 6; 15; 16] ->
   handle s request
   = (SetException (Copy (frame request)) (addressOf IllegalFunction), s))
  /\ map (lookup_code (function s)) [1; 2; 3; 4; 5; 6; 15; 16]
     = [Some h1; Some h2; Some h3; Some h4; Some h5; Some h6; Some h15;
        Some h16]
  /\ length (function s) = 256%nat
  /\ length (handlers s) = 256%nat
  /\ (forall bank,
        In bank [DiscreteInputs (exported s); Coils (exported s);
                 HoldingRegisters (exported s); InputRegisters (exported s)]
        -> exists cells,
             bank = Some cells /\ Z.of_nat (length cells) = 65536
             /\ forall cell, In cell cells -> cell = 0).
Proof.
  intros s. split; [|split; [reflexivity|split; [|split]]].
  - intros Hother. apply handle_no_handler.
    + unfold lookup_code, s, NewServerWithDefaults, setFunction; cbn [function].
      set (code := GetFunction (frame request)) in *.
      assert (Hn : forall k : nat, In (Z.of_nat k) [1; 2; 3; 4; 5; 6; 15; 16]
                     -> Z.to_nat code <> k).
      { intros k Hk Heq. apply Hother. subst k.
        destruct (Z.le_gt_cases 0 code) as [Hpos|Hneg].
        - now rewrite Z2Nat.id in Hk.
        - replace (Z.to_nat code) with 0%nat in Hk by lia.
          simpl in Hk. intuition discriminate. }
      change (Z.to_nat 1) with 1%nat. change (Z.to_nat 2) with 2%nat.
      change (Z.to_nat 3) with 3%nat. change (Z.to_nat 4) with 4%nat.
      change (Z.to_nat 5) with 5%nat. change (Z.to_nat 6) with 6%nat.
      change (Z.to_nat 15) with 15%nat. change (Z.to_nat 16) with 16%nat.
      rewrite !list_lookup_insert_ne
        by (intros Heq; symmetry in Heq; revert Heq; apply Hn; simpl; tauto).
      unfold withExported; cbn [function].
      destruct (replicate 256 _ !! Z.to_nat code) as [entry|] eqn:E;
        [|reflexivity].
      apply lookup_replicate in E. tauto.
    + apply lookup_code_replicate.
  - unfold s, NewServerWithDefaults, setFunction, withExported;
      cbn [function].
    now rewrite !length_insert, length_replicate.
  - apply length_replicate.
  - intros bank Hbank. exists (replicate (Z.to_nat 65536) 0).
    split; [|split].
    + simpl in Hbank. destruct Hbank as [<-|[<-|[<-|[<-|[]]]]]; reflexivity.
    + rewrite length_replicate. now rewrite Z2Nat.id.
    + intros cell Hcell. apply list_elem_of_In, elem_of_replicate in Hcell.
      tauto.
Qed.

End DefaultServer.

(** ** Listeners *)

Lemma acceptAll_until_error (accepted : list net.Conn) err rest :
  acceptAll (map inl accepted ++ inr err :: rest)
  = (accepted, fst (acceptFailed err), snd (acceptFailed err)).
Proof.
  induction accepted as [|conn accepted IH]; simpl.
  - now destruct (acceptFailed err).
  - now rewrite IH.
Qed.

Lemma acceptAll_blocked (accepted : list net.Conn) :
  acceptAll (map inl accepted) = (accepted, [], Blocked).
Proof.
  induction accepted as [|conn accepted IH]; simpl; [reflexivity|].
  now rewrite IH.
Qed.

(** [accept] spawns a goroutine for each connection accepted before the
    first error of [Accept] and for none after it.  An error whose text
    mentions a closed network connection ends the loop with nil and without
    a log line; any other error is logged and returned. *)
Theorem accept_serves_until_first_error listen accepted err rest :
  closed listen = false ->
  arriving listen = map inl accepted ++ inr err :: rest ->
  accept listen
  = (accepted,
     if Contains (Error err) "use of closed network connection"
     then [] else [UnableToAccept err],
     Return (if Contains (Error err) "use of closed network connection"
             then None else Some err)).
Proof.
  intros Hopen Harr. unfold accept. rewrite Hopen, Harr.
  rewrite acceptAll_until_error. unfold acceptFailed.
  now destruct (Contains _ _).
Qed.

(** After [Close] every listener and every port of the server is closed;
    the [accept] loop of a listener whose closing error mentions a closed
    network connection returns nil, without a log line, and spawns nothing
    for the connections that were still to be accepted. *)
Theorem Close_ends_accept (e : Endpoints) :
  (forall listen, In listen (listeners e) ->
     Contains (Error (closing listen)) "use of closed network connection"
     = true) ->
  length (listeners (Close e)) = length (listeners e)
  /\ (forall listen, In listen (listeners (Close e)) ->
      closed listen = true /\ accept listen = ([], [], Return None))
  /\ (forall port, In port (ports (Close e)) -> opened port = false).
Proof.
  intros Hclosing. unfold Close; simpl. split; [apply length_map|]. split.
  - intros listen Hin. apply in_map_iff in Hin as (l0 & <- & Hl0).
    split; [reflexivity|]. unfold accept, acceptFailed; simpl.
    now rewrite (Hclosing l0 Hl0).
  - intros port Hin. now apply in_map_iff in Hin as (p0 & <- & _).
Qed.

Section ListenFacts.
Variable KeyPair : Type.
Variable ReadFile : string -> list Byte.byte + error.
Variable parsePEM : list Byte.byte -> list x509.Certificate.
Variable LoadX509KeyPair : string -> string -> KeyPair + error.
Variable netListen : string -> Listener + error.
Variable tlsListen : string -> tlsconf.Config KeyPair -> Listener + error.

(** [ListenTLS] returns nil exactly when it has added a listener and started
    [accept] on it.  That listener was opened with a configuration that
    requires and verifies client certificates against the certificates,
    at least one, parsed from the CA file, and presents the key pair loaded
    from [crt] and [key].  In every other case it returns an error, adds no
    listener and starts nothing. *)
Theorem ListenTLS_outcome (e : Endpoints) (endpoint key crt ca : string) :
  match ListenTLS KeyPair ReadFile parsePEM LoadX509KeyPair tlsListen
                  e endpoint key crt ca with
  | (e', Some listen, None) =>
      exists pem cert,
        ReadFile ca = inl pem
        /\ parsePEM pem <> []
        /\ LoadX509KeyPair crt key = inl cert
        /\ tlsListen endpoint
             {| tlsconf.Certificates := [cert];
                tlsconf.ClientAuth := tlsconf.RequireAndVerifyClientCert;
                tlsconf.ClientCAs := parsePEM pem |} = inl listen
        /\ listeners e' = listeners e ++ [listen]
        /\ ports e' = ports e
  | (e', None, Some err) => e' = e
  | _ => False
  end.
Proof.
  unfold ListenTLS, createServerTLSConfig.
  destruct (ReadFile ca) as [pem|err] eqn:Hread; [|reflexivity].
  destruct (parsePEM pem) as [|root roots] eqn:Hpem; [reflexivity|].
  destruct (LoadX509KeyPair crt key) as [cert|err] eqn:Hload; [|reflexivity].
  destruct (tlsListen endpoint _) as [listen|err] eqn:Hlisten; [|reflexivity].
  exists pem, cert. rewrite Hpem. repeat split; try assumption. discriminate.
Qed.

(** A listener added by [ListenTCP] or by [ListenTLS] is among those
    [Close] closes; its [accept] loop then returns nil without a log line,
    provided the error of the closed listener mentions a closed network
    connection. *)
Theorem Close_reaches_added_listeners (e e' : Endpoints)
    (endpoint key crt ca : string) logs listen :
  Contains (Error (closing listen)) "use of closed network connection"
  = true ->
  ListenTCP netListen e endpoint = (e', logs, Some listen, None)
  \/ ListenTLS KeyPair ReadFile parsePEM LoadX509KeyPair tlsListen
               e endpoint key crt ca = (e', Some listen, None) ->
  In (closeListener listen) (listeners (Close e'))
  /\ accept (closeListener listen) = ([], [], Return None).
Proof.
  intros Hclosing Hadded. split.
  - apply in_map. destruct Hadded as [Htcp|Htls].
    + unfold ListenTCP in Htcp.
      destruct (netListen endpoint) as [l|err]; [|discriminate].
      injection Htcp as <- _ <-. apply in_app_iff. right. now left.
    + unfold ListenTLS in Htls.
      destruct (createServerTLSConfig _ _ _ _ _ _ _) as [config|err];
        [|discriminate].
      destruct (tlsListen endpoint config) as [l|err]; [|discriminate].
      injection Htls as <- <-. apply in_app_iff. right. now left.
  - unfold accept, acceptFailed; simpl. now rewrite Hclosing.
Qed.

End ListenFacts.

(** ** The further properties on sample values *)

Lemma afterOn_reachable (s : Server TCP.Frame) (schedule : list Label) :
  run NewTCPFrame schedule (boot s) <> None ->
  reachable NewTCPFrame s (Cases.afterOn s schedule).
Proof.
  intros Hrun. unfold Cases.afterOn.
  destruct (run NewTCPFrame schedule (boot s)) as [st|] eqn:E;
    [|contradiction].
  apply (run_reachable NewTCPFrame s schedule (boot s)); [constructor|exact E].
Qed.

Lemma registered_handler_is_dispatched_witness :
  fst (handle (RegisterFunctionHandler
                 (Sample.withNative (addressOf IllegalFunction)) 3
                 (Some Cases.flip))
              (Sample.request Sample.readHolding))
  = SetData (Copy Sample.readHolding) [0].
Proof.
  apply (f_equal fst
           (registered_handler_is_dispatched
              (Sample.withNative (addressOf IllegalFunction)) 3 Cases.flip
              (Sample.request Sample.readHolding)
              ltac:(reflexivity) ltac:(lia) ltac:(reflexivity))).
Defined.

Lemma registration_leaves_other_codes_witness :
  fst (handle (RegisterFunctionHandler Cases.flipping 3 (Some Cases.flip))
              (Sample.request Sample.unknown))
  = fst (handle Cases.flipping (Sample.request Sample.unknown))
  /\ TCP.Payload (fst (handle Cases.flipping
                              (Sample.request Sample.unknown))) = [0].
Proof.
  split; [|reflexivity].
  refine (proj1 (proj1 (registration_leaves_other_codes Cases.flipping 3
                          (Some Cases.flip) None
                          (Sample.request Sample.unknown) _ _ _)));
    simpl; lia.
Defined.

Lemma unregistered_native_falls_through_witness :
  handle (RegisterFunctionHandler Cases.flipping 99 None)
         (Sample.request Sample.unknown)
  = (SetException (Copy Sample.unknown) (addressOf IllegalFunction),
     RegisterFunctionHandler Cases.flipping 99 None).
Proof.
  apply (unregistered_native_falls_through Cases.flipping 99
           (Sample.request Sample.unknown) ltac:(reflexivity) ltac:(lia) ltac:(reflexivity)).
Defined.

Lemma context_handler_only_without_native_witness :
  fst (handle (RegisterContextFunctionHandler Cases.flipping 99
                 (Some Cases.roleLength))
              (Sample.request Sample.unknown))
  = fst (handle Cases.flipping (Sample.request Sample.unknown))
  /\ fst (handle (RegisterContextFunctionHandler NewServer 99
                    (Some Cases.roleLength))
                 Sample.operatorRequest)
     = SetData (Copy Sample.unknown) [8].
Proof.
  split.
  - apply (proj1 (context_handler_only_without_native Cases.flipping 99
                    Cases.roleLength (Sample.request Sample.unknown)
                    ltac:(reflexivity) ltac:(lia) ltac:(reflexivity)) Cases.flip eq_refl).
  - apply (proj2 (context_handler_only_without_native NewServer 99
                    Cases.roleLength Sample.operatorRequest
                    ltac:(reflexivity) ltac:(lia) ltac:(reflexivity))
             eq_refl).
Defined.

Lemma pipeline_is_a_sequential_run_witness :
  serial Cases.flipping
    (received (trace (Cases.afterOn Cases.flipping Sample.bothAnswered)))
  = (server (Cases.afterOn Cases.flipping Sample.bothAnswered),
     responses (trace (Cases.afterOn Cases.flipping Sample.bothAnswered)))
  /\ received (trace (Cases.afterOn Cases.flipping Sample.bothAnswered))
     = [Sample.request99; Sample.request99]
  /\ responses (trace (Cases.afterOn Cases.flipping Sample.bothAnswered))
     = [[0; 2; 0; 0; 0; 3; 1; 99; 0]; [0; 2; 0; 0; 0; 3; 1; 99; 1]].
Proof.
  split; [|split; reflexivity].
  exact (pipeline_is_a_sequential_run NewTCPFrame Cases.flipping
           (Cases.afterOn Cases.flipping Sample.bothAnswered)
           (afterOn_reachable Cases.flipping Sample.bothAnswered
              ltac:(discriminate))).
Defined.

Lemma one_request_at_a_time_witness :
  received (trace (Sample.after Cases.twoConnections))
  = answered (trace (Sample.after Cases.twoConnections))
    ++ match serving (Sample.after Cases.twoConnections) with
       | Some r => [r]
       | None => []
       end
  /\ length (received (trace (Sample.after Sample.secondRead))) = 1%nat
  /\ length (answered (trace (Sample.after Sample.secondRead))) = 0%nat.
Proof.
  split; [|split; reflexivity].
  apply (one_request_at_a_time NewTCPFrame NewServer
           (Sample.after Cases.twoConnections)).
  apply after_reachable. discriminate.
Defined.

Lemma failed_handshake_drops_the_connection_witness :
  Logged 1 (TLSHandshakeError Cases.badCertificate)
    = (Accepted 1 : @Event TCP.Frame)
  \/ (Logged 1 (TLSHandshakeError Cases.badCertificate)
        = (Logged 1 (TLSHandshakeError Cases.badCertificate)
           : @Event TCP.Frame)
      /\ Error Cases.badCertificate <> "EOF"%string)
  \/ Logged 1 (TLSHandshakeError Cases.badCertificate)
       = (Closed 1 : @Event TCP.Frame).
Proof.
  refine (proj2 (proj2
    (failed_handshake_drops_the_connection NewTCPFrame NewServer
       (Sample.after Cases.twoConnections) 1
       {| netConn := Cases.refused; pc := Returned |}
       {| tls.Handshake := Some Cases.badCertificate;
          tls.PeerCertificates := [] |}
       Cases.badCertificate _ _ _ _))
    (Logged 1 (TLSHandshakeError Cases.badCertificate)) _ _).
  - apply after_reachable. discriminate.
  - reflexivity.
  - reflexivity.
  - reflexivity.
  - unfold Sample.after. simpl. tauto.
  - reflexivity.
Defined.

Lemma connection_closed_once_on_return_witness :
  closes 1 (trace (Sample.after Cases.twoConnections)) = 1%nat
  /\ closes 0 (trace (Sample.after Cases.twoConnections)) = 0%nat.
Proof.
  split.
  - apply (proj1 (connection_closed_once_on_return NewTCPFrame NewServer
                    (Sample.after Cases.twoConnections) 1
                    {| netConn := Cases.refused; pc := Returned |}
                    (after_reachable Cases.twoConnections
                       ltac:(discriminate))
                    eq_refl)).
  - apply (proj1 (connection_closed_once_on_return NewTCPFrame NewServer
                    (Sample.after Cases.twoConnections) 0
                    {| netConn := Sample.plain [];
                       pc := AtRead "" None |}
                    (after_reachable Cases.twoConnections
                       ltac:(discriminate))
                    eq_refl)).
Defined.


Lemma request_context_contents_witness :
  context.Value (ctx Sample.operatorRequest) "X-Forwarded-For"
  = Some "10.0.0.8"%string
  /\ context.Value (ctx Sample.request99) "Modbus-Role" = None.
Proof.
  split.
  - apply (proj1 (request_context_contents NewTCPFrame NewServer
                    (Sample.after Sample.operatorSends) 0
                    {| netConn := Sample.secured [Sample.operatorCert] [];
                       pc := AtSend "alice"
                               (Some (list_byte_of_string "operator"))
                               Sample.operatorRequest |}
                    Sample.operatorRequest
                    (after_reachable Sample.operatorSends
                       ltac:(discriminate))
                    eq_refl (or_introl eq_refl))).
  - apply (proj2 (proj1 (proj2 (proj2
             (request_context_contents NewTCPFrame NewServer
                (Sample.after Sample.firstAtSend) 0
                {| netConn := Sample.plain [Data Sample.packet];
                   pc := AtSend "" None Sample.request99 |}
                Sample.request99
                (after_reachable Sample.firstAtSend ltac:(discriminate))
                eq_refl (or_introl eq_refl)))) eq_refl)).
Defined.

Lemma NewServerWithDefaults_dispatch_witness :
  handle (NewServerWithDefaults Cases.flip Cases.flip Cases.flip Cases.flip
            Cases.flip Cases.flip Cases.flip Cases.flip)
         (Sample.request Sample.unknown)
  = (SetException (Copy Sample.unknown) (addressOf IllegalFunction),
     NewServerWithDefaults Cases.flip Cases.flip Cases.flip Cases.flip
       Cases.flip Cases.flip Cases.flip Cases.flip).
Proof.
  apply (proj1 (NewServerWithDefaults_dispatch Cases.flip Cases.flip
                  Cases.flip Cases.flip Cases.flip Cases.flip Cases.flip
                  Cases.flip (Sample.request Sample.unknown))).
  simpl. intuition discriminate.
Defined.

Lemma accept_serves_until_first_error_witness :
  accept (Cases.listening
            [inl (Sample.plain []); inr Cases.tooManyFiles;
             inl Cases.refused])
  = ([Sample.plain []], [UnableToAccept Cases.tooManyFiles],
     Return (Some Cases.tooManyFiles))
  /\ accept (Cases.listening
               [inl (Sample.plain []); inr Cases.closedListener;
                inl Cases.refused])
     = ([Sample.plain []], [], Return None).
Proof.
  split.
  - apply (accept_serves_until_first_error
             (Cases.listening
                [inl (Sample.plain []); inr Cases.tooManyFiles;
                 inl Cases.refused])
             [Sample.plain []] Cases.tooManyFiles [inl Cases.refused]);
      reflexivity.
  - apply (accept_serves_until_first_error
             (Cases.listening
                [inl (Sample.plain []); inr Cases.closedListener;
                 inl Cases.refused])
             [Sample.plain []] Cases.closedListener [inl Cases.refused]);
      reflexivity.
Defined.

Lemma Close_ends_accept_witness :
  closed (closeListener (Cases.listening [inl (Sample.plain [])])) = true
  /\ accept (closeListener (Cases.listening [inl (Sample.plain [])]))
     = ([], [], Return None).
Proof.
  refine (proj1 (proj2 (Close_ends_accept Cases.oneListener _))
            (closeListener (Cases.listening [inl (Sample.plain [])])) _).
  - intros listen [<-|[]]. reflexivity.
  - left. reflexivity.
Defined.

Lemma Close_reaches_added_listeners_witness :
  In (closeListener (Cases.listening []))
     (listeners
        (Close {| listeners := listeners Cases.oneListener
                               ++ [Cases.listening []];
                  ports := ports Cases.oneListener |}))
  /\ accept (closeListener (Cases.listening [])) = ([], [], Return None).
Proof.
  apply (Close_reaches_added_listeners unit
           (fun _ => inr io_EOF) (fun _ => []) (fun _ _ => inr io_EOF)
           (fun _ => inl (Cases.listening []))
           (fun _ _ => inr io_EOF)
           Cases.oneListener
           {| listeners := listeners Cases.oneListener
                           ++ [Cases.listening []];
              ports := ports Cases.oneListener |}
           ":502" "key.pem" "crt.pem" "ca.pem" [] (Cases.listening [])).
  - reflexivity.
  - left. reflexivity.
Defined.

Lemma NewServer_answers_IllegalFunction_witness :
  server (Sample.after Sample.bothAnswered) = NewServer
  /\ responses (trace (Sample.after Sample.bothAnswered))
     = [Bytes (SetException (Copy Sample.unknown)
                            (addressOf IllegalFunction));
        Bytes (SetException (Copy Sample.unknown)
                            (addressOf IllegalFunction))].
Proof.
  split; [|reflexivity].
  refine (proj1 (NewServer_answers_IllegalFunction NewTCPFrame
                   (Sample.after Sample.bothAnswered) _)).
  apply after_reachable. discriminate.
Defined.
